(** * Timing wrappers of the events library

    A shallow embedding of [src/events.ts] and of its variant with
    factory-time arguments ([part_000]): [throttle], [finalEvent],
    [initialEvent], [animationEvent] and [startInterval].

    The wrappers are closures over a few mutable variables ([lastCall],
    [timer], [frame]) which talk to the host through [Date.now],
    [setTimeout]/[clearTimeout], [setInterval] and
    [requestAnimationFrame]/[cancelAnimationFrame].  The closure variables
    become a record that is threaded through every call, together with an
    explicit model of the host (module [Host]).  The user callback is opaque:
    an invocation is recorded in the host's log with the time, the argument
    list it received, and whether it ran inside the wrapper call or from a
    closure run by the host.  Whether an invocation returns or throws is
    given by a [behaviour]; the wrappers catch nothing, so what a wrapper
    call does after invoking the callback happens only if the callback
    returns. *)

From Stdlib Require Import ZArith List Bool String Lia.
Import ListNotations.
Local Open Scope Z_scope.

(* ================================================================== *)
(** ** The host: clock, timers, rendering frames, invocation log        *)
(* ================================================================== *)

Module Host.

(** The values passed around as [any]: numbers (time stamps are numbers)
    and strings are all the development needs. *)
Inductive value : Type :=
| Num (z : Z)
| Str (s : string).

(** Where a callback invocation came from: the body of the wrapper call
    itself, or a closure the host ran later. *)
Inductive origin : Type := Immediate | Deferred.

Record entry : Type := {
  e_origin : origin;
  e_time : Z;
  e_args : list value
}.

(** A pending [setTimeout] or [setInterval].  [t_args] is the argument list
    the user function receives when the timer runs; [t_repeat] is the
    period of a [setInterval], [None] for a [setTimeout]. *)
Record scheduled : Type := {
  t_id : Z;
  t_due : Z;
  t_repeat : option Z;
  t_args : list value
}.

(** A pending [requestAnimationFrame]: the closure maps the frame's time
    stamp to the argument list the callback receives. *)
Record frame_request : Type := {
  f_id : Z;
  f_body : Z -> list value
}.

Record host : Type := {
  clock : Z;
  next_id : Z;
  timers : list scheduled;
  frames : list frame_request;
  log : list entry
}.

Definition fresh (now : Z) : host :=
  {| clock := now; next_id := 1; timers := []; frames := []; log := [] |}.

(** [Date.now()] *)
Definition now (h : host) : Z := clock h.

(** [callback(...args)], run at the current time. *)
Definition invoke (o : origin) (args : list value) (h : host) : host :=
  {| clock := clock h; next_id := next_id h; timers := timers h;
     frames := frames h;
     log := log h ++ [{| e_origin := o; e_time := clock h; e_args := args |}] |}.

(** What a wrapper can observe of the user's callback: whether an
    invocation returns or throws ([true]).  It may depend on the arguments
    and on the host as it is when the invocation is made: the time, what
    has been invoked so far.  An exception propagates out of the wrapper
    call, or out of the closure the host runs; nothing catches it.  A
    callback that calls its own wrapper is not modelled. *)
Definition behaviour : Type := host -> list value -> bool.

Definition never_throws : behaviour := fun _ _ => false.

Definition always_throws : behaviour := fun _ _ => true.

(** [setTimeout(() => callback(...args), timeout)]: a negative delay counts
    as zero; the handle is a fresh number. *)
Definition setTimeout (args : list value) (timeout : Z) (h : host) : Z * host :=
  (next_id h,
   {| clock := clock h; next_id := next_id h + 1;
      timers := timers h ++ [{| t_id := next_id h;
                                t_due := clock h + Z.max 0 timeout;
                                t_repeat := None;
                                t_args := args |}];
      frames := frames h; log := log h |}).

(** [setInterval(handler, timeout, ...args)].  The clock counts whole
    units, so a period below one unit is run as one unit. *)
Definition period (timeout : Z) : Z := Z.max 1 timeout.

Definition setInterval (args : list value) (timeout : Z) (h : host) : Z * host :=
  (next_id h,
   {| clock := clock h; next_id := next_id h + 1;
      timers := timers h ++ [{| t_id := next_id h;
                                t_due := clock h + period timeout;
                                t_repeat := Some timeout;
                                t_args := args |}];
      frames := frames h; log := log h |}).

(** [clearTimeout(id)] and [clearInterval(id)] share one pool of handles;
    an unknown handle is ignored. *)
Definition clearTimeout (id : Z) (h : host) : host :=
  {| clock := clock h; next_id := next_id h;
     timers := filter (fun x => negb (t_id x =? id)) (timers h);
     frames := frames h; log := log h |}.

Definition clearInterval := clearTimeout.

Definition requestAnimationFrame (body : Z -> list value) (h : host) : Z * host :=
  (next_id h,
   {| clock := clock h; next_id := next_id h + 1; timers := timers h;
      frames := frames h ++ [{| f_id := next_id h; f_body := body |}];
      log := log h |}).

Definition cancelAnimationFrame (id : Z) (h : host) : host :=
  {| clock := clock h; next_id := next_id h; timers := timers h;
     frames := filter (fun x => negb (f_id x =? id)) (frames h);
     log := log h |}.

(** What remains of a timer after it has run: a [setTimeout] is gone, a
    [setInterval] is due again one period later. *)
Definition again (x : scheduled) : list scheduled :=
  match t_repeat x with
  | None => []
  | Some p => [{| t_id := t_id x; t_due := t_due x + period p;
                  t_repeat := Some p; t_args := t_args x |}]
  end.

(** The earliest timer that is due by time [t] (among equally early ones
    the one registered first), and the timers pending once it has run. *)
Fixpoint take_due (t : Z) (ts : list scheduled) : option (scheduled * list scheduled) :=
  match ts with
  | [] => None
  | x :: rest =>
      match take_due t rest with
      | Some (y, rest') =>
          if t_due y <? t_due x then Some (y, x :: rest')
          else Some (x, again x ++ rest)
      | None =>
          if t_due x <=? t then Some (x, again x ++ rest) else None
      end
  end.

(** Running one timer: the clock reaches its due time (or stays, when the
    timer is late) and the user function is invoked.  If it throws, the
    host reports the exception and carries on; no wrapper variable is
    involved either way. *)
Definition fire (x : scheduled) (rest : list scheduled) (h : host) : host :=
  let h1 := {| clock := Z.max (clock h) (t_due x); next_id := next_id h;
               timers := rest; frames := frames h; log := log h |} in
  invoke Deferred (t_args x) h1.

(** How often a timer runs up to time [t]. *)
Definition firings (t : Z) (x : scheduled) : nat :=
  if t <? t_due x then O
  else match t_repeat x with
       | None => 1%nat
       | Some p => S (Z.to_nat ((t - t_due x) / period p))
       end.

Definition budget (t : Z) (ts : list scheduled) : nat :=
  fold_right (fun x n => (firings t x + n)%nat) O ts.

Fixpoint run_timers (fuel : nat) (t : Z) (h : host) : host :=
  match fuel with
  | O => h
  | S n =>
      match take_due t (timers h) with
      | None => h
      | Some (x, rest) => run_timers n t (fire x rest h)
      end
  end.

Definition set_clock (t : Z) (h : host) : host :=
  {| clock := Z.max (clock h) t; next_id := next_id h; timers := timers h;
     frames := frames h; log := log h |}.

(** Time passes until [t] on an idle event loop: every timer due by then
    runs, in order of due time. *)
Definition advance (t : Z) (h : host) : host :=
  set_clock t (run_timers (budget t (timers h)) t h).

(** Time passes until [t] on a busy event loop: nothing runs; what became
    due runs late, at the next [advance]. *)
Definition stall (t : Z) (h : host) : host := set_clock t h.

(** The host renders a frame with time stamp [ts]: every pending frame
    request runs once, in order of registration. *)
Definition render_frame (ts : Z) (h : host) : host :=
  fold_left (fun acc r => invoke Deferred (f_body r ts) acc) (frames h)
    {| clock := clock h; next_id := next_id h; timers := timers h;
       frames := []; log := log h |}.

(** What can happen to a wrapper instance. *)
Inductive event : Type :=
| Call (args : list value)
| Advance (t : Z)
| Stall (t : Z)
| Frame (ts : Z).

(** The closures handed to the host only invoke the callback, so the host
    running them leaves the wrapper's variables alone. *)
Definition step {S : Type} (call : list value -> S * host -> S * host)
    (e : event) (s : S * host) : S * host :=
  match e with
  | Call args => call args s
  | Advance t => (fst s, advance t (snd s))
  | Stall t => (fst s, stall t (snd s))
  | Frame ts => (fst s, render_frame ts (snd s))
  end.

Definition run {S : Type} (call : list value -> S * host -> S * host)
    (es : list event) (s : S * host) : S * host :=
  fold_left (fun acc e => step call e acc) es s.

(** A burst of calls on an idle event loop: each call happens at its time. *)
Fixpoint timed (calls : list (Z * list value)) : list event :=
  match calls with
  | [] => []
  | (t, args) :: rest => Advance t :: Call args :: timed rest
  end.

Definition count_origin (o : origin) (l : list entry) : nat :=
  List.length (filter (fun e => match e_origin e, o with
                           | Immediate, Immediate | Deferred, Deferred => true
                           | _, _ => false
                           end) l).

Definition deferred_only (l : list entry) : Prop :=
  Forall (fun e => e_origin e = Deferred) l.

(** The time of the latest invocation made from inside a wrapper call. *)
Fixpoint last_immediate (l : list entry) : option Z :=
  match l with
  | [] => None
  | e :: rest =>
      match last_immediate rest with
      | Some t => Some t
      | None => match e_origin e with
                | Immediate => Some (e_time e)
                | Deferred => None
                end
      end
  end.

(** At most one timer is pending; it is a [setTimeout] and [handle] names it. *)
Definition sole_timer (handle : option Z) (ts : list scheduled) : Prop :=
  ts = [] \/
  exists x, ts = [x] /\ handle = Some (t_id x) /\ t_repeat x = None.

(** At most one frame request is pending, and [handle] names it. *)
Definition sole_frame (handle : option Z) (fs : list frame_request) : Prop :=
  fs = [] \/ exists r, fs = [r] /\ handle = Some (f_id r).

(** Calls that follow one another, each less than [timeout] after the one
    before (the first one after time [prev]). *)
Fixpoint spaced (timeout prev : Z) (calls : list (Z * list value)) : Prop :=
  match calls with
  | [] => True
  | (t, _) :: rest => prev <= t < prev + timeout /\ spaced timeout t rest
  end.

End Host.

Import Host.

(** The variables closed over by the function [throttle] returns; both
    source files declare the same two. *)
Record throttle_state : Type := {
  lastCall : option Z;
  timer : option Z
}.

Definition throttle_init : throttle_state :=
  {| lastCall := None; timer := None |}.

(** [lastCall === undefined || timeNow - lastCall > timeout] *)
Definition longer_than (timeout timeNow : Z) (lastCall : option Z) : bool :=
  match lastCall with
  | None => true
  | Some l => timeout <? timeNow - l
  end.

(** [timer === undefined]; a handle is a number, so this is also the
    negation of [typeof timer === "number"]. *)
Definition is_undefined (x : option Z) : bool :=
  match x with None => true | Some _ => false end.

(* ================================================================== *)
(** ** src/events.ts                                                    *)
(* ================================================================== *)

Module Events.

(** The function returned by [throttle(callback, timeout, executeLastEvent)],
    called with [args].  On the immediate path [lastCall] is assigned
    first, then the callback runs, and the timer is cleared only if the
    callback returns. *)
Definition throttle (callback : behaviour) (timeout : Z)
    (executeLastEvent : bool)
    (args : list value) (s : throttle_state * host) : throttle_state * host :=
  let (st, h) := s in
  let timeNow := now h in
  if longer_than timeout timeNow (lastCall st) then
    let h1 := invoke Immediate args h in
    if callback h args then
      ({| lastCall := Some timeNow; timer := timer st |}, h1)
    else
      match timer st with
      | Some id =>
          ({| lastCall := Some timeNow; timer := None |}, clearTimeout id h1)
      | None => ({| lastCall := Some timeNow; timer := None |}, h1)
      end
  else if executeLastEvent && is_undefined (timer st) then
    let (id, h1) := setTimeout args timeout h in
    ({| lastCall := lastCall st; timer := Some id |}, h1)
  else (st, h).

(** The function returned by [finalEvent(callback, timeout)]; the state is
    the closure variable [timer].  [clearTimeout(undefined)] does nothing. *)
Definition finalEvent (timeout : Z) (args : list value)
    (s : option Z * host) : option Z * host :=
  let (timer, h) := s in
  let h1 := match timer with
            | Some id => clearTimeout id h
            | None => h
            end in
  let (id, h2) := setTimeout args timeout h1 in
  (Some id, h2).

(** The function returned by [initialEvent(callback, timeout)]; the state
    is the closure variable [lastCall].  The callback runs before
    [lastCall = now], so the assignment is skipped when it throws. *)
Definition initialEvent (callback : behaviour) (timeout : Z)
    (args : list value)
    (s : option Z * host) : option Z * host :=
  let (lastCall, h) := s in
  let now := Host.now h in
  if longer_than timeout now lastCall then
    let h1 := invoke Immediate args h in
    if callback h args then (lastCall, h1) else (Some now, h1)
  else (Some now, h).

(** The function returned by [animationEvent(callback)]; the state is the
    closure variable [frame].  The closure handed to the host is
    [time => callback(...args, time)]. *)
Definition animationEvent (args : list value)
    (s : option Z * host) : option Z * host :=
  let (frame, h) := s in
  let h1 := match frame with
            | Some id => cancelAnimationFrame id h
            | None => h
            end in
  let (id, h2) := requestAnimationFrame (fun time => args ++ [Num time]) h1 in
  (Some id, h2).

(** An omitted [timeout] is [undefined], which the host reads as zero. *)
Definition delay (timeout : option Z) : Z :=
  match timeout with
  | Some t => t
  | None => 0
  end.

(** [startInterval(handler, timeout, ...args)]: [handler()] and then
    [return setInterval(handler, timeout, ...args)].  When [handler()]
    throws, no interval is set and no handle is returned. *)
Definition startInterval (handler : behaviour) (timeout : option Z)
    (args : list value) (h : host) : option Z * host :=
  let h1 := invoke Immediate [] h in
  if handler h [] then (None, h1)
  else
    let (id, h2) := setInterval args (delay timeout) h1 in
    (Some id, h2).

End Events.

(* ================================================================== *)
(** ** part_000: the variant with factory-time arguments                *)
(* ================================================================== *)

Module Part000.

(** The function returned by
    [throttle(callback, timeout, executeLastEvent, ...initArguments)],
    called with [callArguments]. *)
Definition throttle (callback : behaviour) (timeout : Z)
    (executeLastEvent : bool)
    (initArguments callArguments : list value)
    (s : throttle_state * host) : throttle_state * host :=
  let (st, h) := s in
  let timeNow := now h in
  if longer_than timeout timeNow (lastCall st) then
    let h1 := invoke Immediate callArguments h in
    if callback h callArguments then
      ({| lastCall := Some timeNow; timer := timer st |}, h1)
    else
      match timer st with
      | Some id =>
          ({| lastCall := Some timeNow; timer := None |}, clearTimeout id h1)
      | None => ({| lastCall := Some timeNow; timer := None |}, h1)
      end
  else if executeLastEvent && is_undefined (timer st) then
    let (id, h1) := setTimeout (callArguments ++ initArguments) timeout h in
    ({| lastCall := lastCall st; timer := Some id |}, h1)
  else (st, h).

Definition finalEvent (timeout : Z) (args : list value)
    (s : option Z * host) : option Z * host :=
  let (timer, h) := s in
  let h1 := match timer with
            | Some id => clearTimeout id h
            | None => h
            end in
  let (id, h2) := setTimeout args timeout h1 in
  (Some id, h2).

(** The function returned by
    [initialEvent(callback, timeout, ...initArguments)]. *)
Definition initialEvent (callback : behaviour) (timeout : Z)
    (initArguments callArguments : list value)
    (s : option Z * host) : option Z * host :=
  let (lastCall, h) := s in
  let now := Host.now h in
  if longer_than timeout now lastCall then
    let h1 := invoke Immediate (callArguments ++ initArguments) h in
    if callback h (callArguments ++ initArguments)
    then (lastCall, h1)
    else (Some now, h1)
  else (Some now, h).

(** The function returned by [animationEvent(callback, ...initArguments)].
    The closure handed to the host is
    [time => callback(time, ...callArguments, ...initArguments)]. *)
Definition animationEvent (initArguments callArguments : list value)
    (s : option Z * host) : option Z * host :=
  let (frame, h) := s in
  let h1 := match frame with
            | Some id => cancelAnimationFrame id h
            | None => h
            end in
  let (id, h2) :=
    requestAnimationFrame
      (fun time => Num time :: callArguments ++ initArguments) h1 in
  (Some id, h2).

Definition delay (timeout : option Z) : Z :=
  match timeout with
  | Some t => t
  | None => 0
  end.

Definition startInterval (handler : behaviour) (timeout : option Z)
    (args : list value) (h : host) : option Z * host :=
  let h1 := invoke Immediate [] h in
  if handler h [] then (None, h1)
  else
    let (id, h2) := setInterval args (delay timeout) h1 in
    (Some id, h2).

End Part000.

(* ================================================================== *)
(** ** Invariants of the wrapper instances                              *)
(* ================================================================== *)

(** [throttle]: whatever is pending is the one timer [timer] names, and
    [lastCall] is the time of the latest immediate invocation. *)
Definition throttle_inv (s : throttle_state * host) : Prop :=
  sole_timer (timer (fst s)) (timers (snd s)) /\
  lastCall (fst s) = last_immediate (log (snd s)).

(** [finalEvent]: whatever is pending is the one timer [timer] names. *)
Definition finalEvent_inv (s : option Z * host) : Prop :=
  sole_timer (fst s) (timers (snd s)).

(** [animationEvent]: whatever is pending is the one request [frame] names. *)
Definition animationEvent_inv (s : option Z * host) : Prop :=
  sole_frame (fst s) (frames (snd s)).

(* ================================================================== *)
(** ** Measures on logs and runs                                        *)
(* ================================================================== *)

Definition is_immediate (e : entry) : bool :=
  match e_origin e with
  | Immediate => true
  | Deferred => false
  end.

(** The times of the immediate invocations, in the order of the log. *)
Definition immediate_times (l : list entry) : list Z :=
  map e_time (filter is_immediate l).

(** Each time is more than [timeout] after the one before. *)
Fixpoint apart (timeout : Z) (ts : list Z) : Prop :=
  match ts with
  | [] => True
  | t1 :: rest =>
      match rest with
      | [] => True
      | t2 :: _ => timeout < t2 - t1
      end /\ apart timeout rest
  end.

Definition is_call (e : event) : bool :=
  match e with
  | Call _ => true
  | _ => false
  end.

(** How many calls of the wrapper a run contains. *)
Definition calls (es : list event) : nat := List.length (filter is_call es).

(** The argument lists a run passes to the wrapper, in order. *)
Fixpoint passed (es : list event) : list (list value) :=
  match es with
  | [] => []
  | Call args :: rest => args :: passed rest
  | _ :: rest => passed rest
  end.

(** Every invocation made, and every timer pending, carries one of the
    argument lists in [A]; no frame request is pending. *)
Definition args_from (A : list (list value)) (h : host) : Prop :=
  Forall (fun e => In (e_args e) A) (log h) /\
  Forall (fun x => In (t_args x) A) (timers h) /\
  frames h = [].

(** Invocations made so far plus invocations still pending. *)
Definition weight (h : host) : nat :=
  (List.length (log h) + List.length (timers h) + List.length (frames h))%nat.

(** Every pending timer is a [setTimeout]. *)
Definition one_shots (h : host) : Prop :=
  Forall (fun x => t_repeat x = None) (timers h).

(** Calls that follow one another, each at most [timeout] after the one
    before (the first one after time [prev]). *)
Fixpoint within (timeout prev : Z) (cs : list (Z * list value)) : Prop :=
  match cs with
  | [] => True
  | (t, _) :: rest => prev <= t <= prev + timeout /\ within timeout t rest
  end.

(* ================================================================== *)
(** ** Facts about the host                                             *)
(* ================================================================== *)

Section HostFacts.

Lemma budget_app (t : Z) (l1 l2 : list scheduled) :
  budget t (l1 ++ l2) = (budget t l1 + budget t l2)%nat.
Proof.
  induction l1 as [|x l1 IH]; simpl; [reflexivity|].
  rewrite IH. lia.
Qed.

(** A timer that is due runs once, and then as often as what remains of it. *)
Lemma firings_again (t : Z) (x : scheduled) :
  t_due x <= t -> firings t x = S (budget t (again x)).
Proof.
  intros Hdue. unfold firings, again.
  destruct (Z.ltb_spec t (t_due x)) as [Hlt|_]; [lia|].
  destruct (t_repeat x) as [p|]; simpl; [|reflexivity].
  unfold firings; simpl.
  assert (Hp : 0 < period p) by (unfold period; lia).
  destruct (Z.ltb_spec t (t_due x + period p)) as [Hlt|Hge].
  - rewrite Z.div_small by lia. reflexivity.
  - replace (t - t_due x) with ((t - (t_due x + period p)) + 1 * period p) by lia.
    rewrite Z.div_add by lia.
    assert (0 <= (t - (t_due x + period p)) / period p)
      by (apply Z.div_pos; lia).
    rewrite Z2Nat.inj_add by lia. simpl. lia.
Qed.

(** Each timer taken is due, and taking it uses up one unit of the budget. *)
Lemma take_due_budget (t : Z) (ts : list scheduled) :
  forall x ts', take_due t ts = Some (x, ts') ->
    t_due x <= t /\ budget t ts = S (budget t ts').
Proof.
  induction ts as [|y rest IH]; simpl; intros x ts' H; [discriminate|].
  destruct (take_due t rest) as [[z rest']|] eqn:Hrest.
  - destruct (IH z rest' eq_refl) as [Hz Hb].
    destruct (Z.ltb_spec (t_due z) (t_due y)) as [Hlt|Hge];
      inversion H; subst; clear H.
    + split; [assumption|]. simpl. rewrite Hb. lia.
    + split; [lia|]. rewrite budget_app, (firings_again t x) by lia. lia.
  - destruct (Z.leb_spec (t_due y) t) as [Hle|Hgt]; [|discriminate].
    inversion H; subst; clear H.
    split; [assumption|]. rewrite budget_app, (firings_again t x) by lia. lia.
Qed.

Lemma take_due_none (t : Z) (ts : list scheduled) :
  take_due t ts = None -> Forall (fun x => t < t_due x) ts.
Proof.
  induction ts as [|y rest IH]; simpl; intros H; [constructor|].
  destruct (take_due t rest) as [[z rest']|] eqn:Hrest.
  - destruct (t_due z <? t_due y); discriminate.
  - destruct (Z.leb_spec (t_due y) t) as [Hle|Hgt]; [discriminate|].
    constructor; [lia | apply IH; reflexivity].
Qed.

Lemma run_timers_done (t : Z) :
  forall n h, (budget t (timers h) <= n)%nat ->
    take_due t (timers (run_timers n t h)) = None.
Proof.
  induction n as [|n IH]; intros h Hb; simpl.
  - destruct (take_due t (timers h)) as [[x ts']|] eqn:Htake; [|reflexivity].
    apply take_due_budget in Htake. lia.
  - destruct (take_due t (timers h)) as [[x ts']|] eqn:Htake; [|assumption].
    apply IH. apply take_due_budget in Htake. simpl. lia.
Qed.

(** The budget [advance] computes is enough: once time has passed until
    [t], no pending timer is due by [t] any more. *)
Lemma advance_complete (t : Z) (h : host) :
  Forall (fun x => t < t_due x) (timers (advance t h)).
Proof.
  unfold advance. simpl. apply take_due_none, run_timers_done. lia.
Qed.

(** Running timers only appends deferred invocations to the log and
    touches neither the frame requests nor the handle counter. *)
Lemma run_timers_frame (t : Z) :
  forall n h,
    frames (run_timers n t h) = frames h /\
    next_id (run_timers n t h) = next_id h /\
    exists ds, log (run_timers n t h) = log h ++ ds /\ deferred_only ds.
Proof.
  induction n as [|n IH]; intros h; simpl.
  - repeat split. exists []. rewrite app_nil_r. split; [reflexivity|constructor].
  - destruct (take_due t (timers h)) as [[x ts']|].
    + destruct (IH (fire x ts' h)) as (Hf & Hn & ds & Hl & Hd).
      rewrite Hf, Hn, Hl. simpl. repeat split.
      exists ({| e_origin := Deferred; e_time := Z.max (clock h) (t_due x);
                 e_args := t_args x |} :: ds).
      rewrite <- app_assoc. split; [reflexivity|].
      constructor; [reflexivity|assumption].
    + repeat split. exists []. rewrite app_nil_r.
      split; [reflexivity|constructor].
Qed.

Lemma advance_log (t : Z) (h : host) :
  exists ds, log (advance t h) = log h ++ ds /\ deferred_only ds.
Proof.
  unfold advance. simpl.
  destruct (run_timers_frame t (budget t (timers h)) h) as (_ & _ & H).
  exact H.
Qed.

Lemma advance_frames (t : Z) (h : host) : frames (advance t h) = frames h.
Proof.
  unfold advance. simpl.
  destruct (run_timers_frame t (budget t (timers h)) h) as (H & _).
  exact H.
Qed.

Lemma advance_next_id (t : Z) (h : host) : next_id (advance t h) = next_id h.
Proof.
  unfold advance. simpl.
  destruct (run_timers_frame t (budget t (timers h)) h) as (_ & H & _).
  exact H.
Qed.

(** With nothing pending, time just passes. *)
Lemma advance_idle (t : Z) (h : host) :
  timers h = [] -> advance t h = set_clock t h.
Proof.
  intros H. unfold advance. rewrite H. reflexivity.
Qed.

(** With a single [setTimeout] pending, it runs if and only if it is due. *)
Lemma advance_single (t : Z) (h : host) (x : scheduled) :
  timers h = [x] -> t_repeat x = None ->
  advance t h =
    if t_due x <=? t then set_clock t (fire x [] h) else set_clock t h.
Proof.
  intros Hts Hrep. unfold advance. rewrite Hts. simpl.
  unfold firings. rewrite Hrep.
  destruct (Z.leb_spec (t_due x) t) as [Hle|Hgt].
  - destruct (Z.ltb_spec t (t_due x)) as [Hlt|_]; [lia|].
    simpl. rewrite Hts. simpl.
    destruct (Z.leb_spec (t_due x) t) as [_|Hgt]; [|lia].
    unfold again. rewrite Hrep. reflexivity.
  - destruct (Z.ltb_spec t (t_due x)) as [_|Hge]; [|lia].
    reflexivity.
Qed.

Lemma advance_sole_timer (t : Z) (h : host) (handle : option Z) :
  sole_timer handle (timers h) -> sole_timer handle (timers (advance t h)).
Proof.
  intros [Hnil|(x & Hx & Hid & Hrep)].
  - rewrite advance_idle by assumption. left. assumption.
  - rewrite (advance_single t h x) by assumption.
    destruct (t_due x <=? t); simpl.
    + left. reflexivity.
    + right. exists x. auto.
Qed.

Lemma render_frame_fold (ts : Z) (fs : list frame_request) :
  forall h,
    let h' := fold_left (fun acc r => invoke Deferred (f_body r ts) acc) fs h in
    clock h' = clock h /\ next_id h' = next_id h /\ timers h' = timers h /\
    frames h' = frames h /\
    log h' = log h ++ map (fun r => {| e_origin := Deferred; e_time := clock h;
                                       e_args := f_body r ts |}) fs.
Proof.
  induction fs as [|r fs IH]; intros h; simpl.
  - rewrite app_nil_r. auto.
  - destruct (IH (invoke Deferred (f_body r ts) h)) as (Hc & Hn & Ht & Hf & Hl).
    simpl in *. rewrite Hc, Hn, Ht, Hf, Hl, <- app_assoc. auto.
Qed.

(** Rendering a frame runs every pending request with the frame's time
    stamp and leaves none pending. *)
Lemma render_frame_spec (ts : Z) (h : host) :
  clock (render_frame ts h) = clock h /\
  next_id (render_frame ts h) = next_id h /\
  timers (render_frame ts h) = timers h /\
  frames (render_frame ts h) = [] /\
  log (render_frame ts h) =
    log h ++ map (fun r => {| e_origin := Deferred; e_time := clock h;
                              e_args := f_body r ts |}) (frames h).
Proof.
  unfold render_frame.
  exact (render_frame_fold ts (frames h)
           {| clock := clock h; next_id := next_id h; timers := timers h;
              frames := []; log := log h |}).
Qed.

Lemma last_immediate_snoc (l : list entry) (e : entry) :
  last_immediate (l ++ [e]) =
    match e_origin e with
    | Immediate => Some (e_time e)
    | Deferred => last_immediate l
    end.
Proof.
  induction l as [|x l IH]; simpl.
  - destruct (e_origin e); reflexivity.
  - rewrite IH. destruct (e_origin e); [reflexivity|].
    destruct (last_immediate l); reflexivity.
Qed.

Lemma last_immediate_deferred (l ds : list entry) :
  deferred_only ds -> last_immediate (l ++ ds) = last_immediate l.
Proof.
  revert l. induction ds as [|d ds IH]; intros l H.
  - rewrite app_nil_r. reflexivity.
  - inversion H as [|? ? Hd Hds]; subst.
    change (d :: ds) with ([d] ++ ds). rewrite app_assoc, IH by assumption.
    rewrite last_immediate_snoc, Hd. reflexivity.
Qed.

Lemma count_origin_app (o : origin) (l1 l2 : list entry) :
  count_origin o (l1 ++ l2) = (count_origin o l1 + count_origin o l2)%nat.
Proof.
  unfold count_origin. rewrite filter_app, length_app. reflexivity.
Qed.

Lemma count_immediate_deferred (ds : list entry) :
  deferred_only ds -> count_origin Immediate ds = O.
Proof.
  induction 1 as [|d ds Hd _ IH]; [reflexivity|].
  unfold count_origin in *. simpl. rewrite Hd. exact IH.
Qed.

Lemma last_cons {A : Type} (x d : A) (l : list A) :
  last (x :: l) d = last l x.
Proof.
  revert x d. induction l as [|y l IH]; intros x d; [reflexivity|].
  change (last (x :: y :: l) d) with (last (y :: l) d).
  rewrite (IH y d), (IH y x). reflexivity.
Qed.

End HostFacts.

Section Callback.

(** The callback handed to the wrapper factory. *)
Variable callback : behaviour.

(* ================================================================== *)
(** ** Invariants are kept by every event                               *)
(* ================================================================== *)

Lemma part000_throttle_nil (timeout : Z) (ele : bool) (args : list value)
    (s : throttle_state * host) :
  Part000.throttle callback timeout ele [] args s = Events.throttle callback timeout ele args s.
Proof.
  destruct s as [st h]. unfold Part000.throttle, Events.throttle.
  rewrite app_nil_r. reflexivity.
Qed.

Lemma part000_finalEvent_same (timeout : Z) (args : list value)
    (s : option Z * host) :
  Part000.finalEvent timeout args s = Events.finalEvent timeout args s.
Proof. reflexivity. Qed.

Lemma part000_initialEvent_nil (timeout : Z) (args : list value)
    (s : option Z * host) :
  Part000.initialEvent callback timeout [] args s = Events.initialEvent callback timeout args s.
Proof.
  destruct s as [l h]. unfold Part000.initialEvent, Events.initialEvent.
  rewrite app_nil_r. reflexivity.
Qed.

Lemma run_app {S : Type} (call : list value -> S * host -> S * host)
    (es1 es2 : list event) (s : S * host) :
  run call (es1 ++ es2) s = run call es2 (run call es1 s).
Proof. unfold run. apply fold_left_app. Qed.

Lemma run_cons {S : Type} (call : list value -> S * host -> S * host)
    (e : event) (es : list event) (s : S * host) :
  run call (e :: es) s = run call es (step call e s).
Proof. reflexivity. Qed.

(** An invariant kept by every step holds after every run. *)
Lemma run_invariant {S : Type} (call : list value -> S * host -> S * host)
    (P : S * host -> Prop) :
  (forall e s, P s -> P (step call e s)) ->
  forall es s, P s -> P (run call es s).
Proof.
  intros Hstep es. induction es as [|e es IH]; intros s Hs; [exact Hs|].
  simpl. apply IH, Hstep, Hs.
Qed.

Lemma sole_timer_none (ts : list scheduled) :
  sole_timer None ts -> ts = [].
Proof.
  intros [H|(x & _ & H & _)]; [assumption|discriminate].
Qed.

Lemma sole_timer_clear (id : Z) (ts : list scheduled) :
  sole_timer (Some id) ts ->
  filter (fun x => negb (t_id x =? id)) ts = [].
Proof.
  intros [H|(x & Hx & Hid & _)]; subst; [reflexivity|].
  inversion Hid; subst. simpl. rewrite Z.eqb_refl. reflexivity.
Qed.

Lemma deferred_only_map (c : Z) (ts : Z) (fs : list frame_request) :
  deferred_only (map (fun r => {| e_origin := Deferred; e_time := c;
                                  e_args := f_body r ts |}) fs).
Proof.
  induction fs; simpl; constructor; [reflexivity|assumption].
Qed.

(** The steps of the host keep [sole_timer] and only add deferred
    invocations, whatever the wrapper is. *)
Lemma host_step_timers {S : Type} (call : list value -> S * host -> S * host)
    (e : event) (s : S * host) (handle : option Z) :
  (forall args, e <> Call args) ->
  sole_timer handle (timers (snd s)) ->
  fst (step call e s) = fst s /\
  sole_timer handle (timers (snd (step call e s))) /\
  exists ds, log (snd (step call e s)) = log (snd s) ++ ds /\ deferred_only ds.
Proof.
  intros Hcall Hsole. destruct e as [args|t|t|ts]; simpl.
  - exfalso. apply (Hcall args). reflexivity.
  - split; [reflexivity|]. split; [apply advance_sole_timer, Hsole|].
    apply advance_log.
  - split; [reflexivity|]. split; [exact Hsole|].
    exists []. rewrite app_nil_r. split; [reflexivity|constructor].
  - destruct (render_frame_spec ts (snd s)) as (_ & _ & Ht & _ & Hl).
    split; [reflexivity|]. rewrite Ht, Hl. split; [exact Hsole|].
    eexists. split; [reflexivity|]. apply deferred_only_map.
Qed.

Lemma throttle_inv_step (timeout : Z) (ele : bool) (init : list value)
    (e : event) (s : throttle_state * host) :
  throttle_inv s ->
  throttle_inv (step (Part000.throttle callback timeout ele init) e s).
Proof.
  intros [Hsole Hlast].
  destruct e as [args|t|t|ts].
  - destruct s as [st h]. simpl in *. unfold Part000.throttle.
    destruct (longer_than timeout (now h) (lastCall st)).
    + destruct (callback h args).
      { unfold throttle_inv. simpl. rewrite last_immediate_snoc. simpl.
        split; [exact Hsole | reflexivity]. }
      destruct (timer st) as [id|] eqn:Htimer; unfold throttle_inv; simpl.
      * rewrite (sole_timer_clear id) by assumption.
        rewrite last_immediate_snoc. simpl. split; [left|]; reflexivity.
      * rewrite last_immediate_snoc. simpl.
        split; [left; apply sole_timer_none; assumption | reflexivity].
    + destruct (timer st) as [id|] eqn:Htimer; destruct ele; simpl;
        unfold throttle_inv; simpl; rewrite ?Htimer; auto.
      rewrite (sole_timer_none _ Hsole). simpl. split; [|assumption].
      right. eexists. split; [reflexivity|]. simpl. auto.
  - destruct (host_step_timers (Part000.throttle callback timeout ele init)
                (Advance t) s (timer (fst s))) as (Hst & Hs & ds & Hl & Hd);
      [discriminate | assumption |].
    unfold throttle_inv. rewrite Hst, Hl, last_immediate_deferred by assumption.
    auto.
  - destruct (host_step_timers (Part000.throttle callback timeout ele init)
                (Stall t) s (timer (fst s))) as (Hst & Hs & ds & Hl & Hd);
      [discriminate | assumption |].
    unfold throttle_inv. rewrite Hst, Hl, last_immediate_deferred by assumption.
    auto.
  - destruct (host_step_timers (Part000.throttle callback timeout ele init)
                (Frame ts) s (timer (fst s))) as (Hst & Hs & ds & Hl & Hd);
      [discriminate | assumption |].
    unfold throttle_inv. rewrite Hst, Hl, last_immediate_deferred by assumption.
    auto.
Qed.

Lemma throttle_inv_init (t0 : Z) : throttle_inv (throttle_init, fresh t0).
Proof. split; [left|]; reflexivity. Qed.

Lemma throttle_inv_run (timeout : Z) (ele : bool) (init : list value)
    (es : list event) (s : throttle_state * host) :
  throttle_inv s -> throttle_inv (run (Part000.throttle callback timeout ele init) es s).
Proof.
  apply run_invariant. intros e s'. apply throttle_inv_step.
Qed.

Lemma run_ext {S : Type} (call1 call2 : list value -> S * host -> S * host) :
  (forall args s, call1 args s = call2 args s) ->
  forall es s, run call1 es s = run call2 es s.
Proof.
  intros Heq es. induction es as [|e es IH]; intros s; [reflexivity|].
  simpl. rewrite <- IH. f_equal. destruct e; simpl; auto.
Qed.

Lemma events_throttle_inv_run (timeout : Z) (ele : bool)
    (es : list event) (s : throttle_state * host) :
  throttle_inv s -> throttle_inv (run (Events.throttle callback timeout ele) es s).
Proof.
  rewrite <- (run_ext _ _ (part000_throttle_nil timeout ele)).
  apply throttle_inv_run.
Qed.

(** A call of the [finalEvent] wrapper leaves exactly the timer it has just
    armed, and invokes nothing. *)
Lemma finalEvent_call (timeout : Z) (args : list value) (s : option Z * host) :
  finalEvent_inv s ->
  let s' := Events.finalEvent timeout args s in
  fst s' = Some (next_id (snd s)) /\
  timers (snd s') = [{| t_id := next_id (snd s);
                        t_due := clock (snd s) + Z.max 0 timeout;
                        t_repeat := None; t_args := args |}] /\
  log (snd s') = log (snd s) /\
  clock (snd s') = clock (snd s) /\
  frames (snd s') = frames (snd s).
Proof.
  destruct s as [[id|] h]; unfold finalEvent_inv; simpl; intros Hsole.
  - rewrite (sole_timer_clear id) by assumption. simpl. auto.
  - rewrite (sole_timer_none _ Hsole). simpl. auto.
Qed.

Lemma finalEvent_inv_step (timeout : Z) (e : event) (s : option Z * host) :
  finalEvent_inv s -> finalEvent_inv (step (Events.finalEvent timeout) e s).
Proof.
  intros Hinv. destruct e as [args|t|t|ts].
  - destruct (finalEvent_call timeout args s Hinv) as (Hf & Ht & _).
    unfold finalEvent_inv. simpl. rewrite Hf, Ht.
    right. eexists. split; [reflexivity|]. simpl. auto.
  - apply (host_step_timers (Events.finalEvent timeout) (Advance t) s (fst s));
      [discriminate | assumption].
  - apply (host_step_timers (Events.finalEvent timeout) (Stall t) s (fst s));
      [discriminate | assumption].
  - apply (host_step_timers (Events.finalEvent timeout) (Frame ts) s (fst s));
      [discriminate | assumption].
Qed.

Lemma sole_frame_none (fs : list frame_request) :
  sole_frame None fs -> fs = [].
Proof.
  intros [H|(r & _ & H)]; [assumption|discriminate].
Qed.

Lemma sole_frame_cancel (id : Z) (fs : list frame_request) :
  sole_frame (Some id) fs ->
  filter (fun x => negb (f_id x =? id)) fs = [].
Proof.
  intros [H|(r & Hr & Hid)]; subst; [reflexivity|].
  inversion Hid; subst. simpl. rewrite Z.eqb_refl. reflexivity.
Qed.

(** A call of an [animationEvent] wrapper leaves exactly the request it has
    just made; [body] is the closure the wrapper hands to the host. *)
Lemma animationEvent_call (args : list value) (s : option Z * host) :
  animationEvent_inv s ->
  let s' := Events.animationEvent args s in
  fst s' = Some (next_id (snd s)) /\
  frames (snd s') = [{| f_id := next_id (snd s);
                        f_body := fun time => args ++ [Num time] |}] /\
  log (snd s') = log (snd s) /\
  clock (snd s') = clock (snd s) /\
  timers (snd s') = timers (snd s).
Proof.
  destruct s as [[id|] h]; unfold animationEvent_inv; simpl; intros Hsole.
  - rewrite (sole_frame_cancel id) by assumption. simpl. auto.
  - rewrite (sole_frame_none _ Hsole). simpl. auto.
Qed.

Lemma part000_animationEvent_call (init args : list value)
    (s : option Z * host) :
  animationEvent_inv s ->
  let s' := Part000.animationEvent init args s in
  fst s' = Some (next_id (snd s)) /\
  frames (snd s') = [{| f_id := next_id (snd s);
                        f_body := fun time => Num time :: args ++ init |}] /\
  log (snd s') = log (snd s) /\
  clock (snd s') = clock (snd s) /\
  timers (snd s') = timers (snd s).
Proof.
  destruct s as [[id|] h]; unfold animationEvent_inv; simpl; intros Hsole.
  - rewrite (sole_frame_cancel id) by assumption. simpl. auto.
  - rewrite (sole_frame_none _ Hsole). simpl. auto.
Qed.

Lemma host_step_frames {S : Type} (call : list value -> S * host -> S * host)
    (e : event) (s : S * host) (handle : option Z) :
  (forall args, e <> Call args) ->
  sole_frame handle (frames (snd s)) ->
  sole_frame handle (frames (snd (step call e s))).
Proof.
  intros Hcall Hsole. destruct e as [args|t|t|ts]; cbn [step fst snd].
  - exfalso. apply (Hcall args). reflexivity.
  - rewrite advance_frames. exact Hsole.
  - exact Hsole.
  - destruct (render_frame_spec ts (snd s)) as (_ & _ & _ & Hf & _).
    rewrite Hf. left. reflexivity.
Qed.

Lemma animationEvent_inv_step (e : event) (s : option Z * host) :
  animationEvent_inv s -> animationEvent_inv (step Events.animationEvent e s).
Proof.
  intros Hinv. destruct e as [args|t|t|ts].
  - destruct (animationEvent_call args s Hinv) as (Hf & Ht & _).
    unfold animationEvent_inv. simpl. rewrite Hf, Ht.
    right. eexists. split; reflexivity.
  - apply (host_step_frames Events.animationEvent (Advance t) s (fst s));
      [discriminate | assumption].
  - apply (host_step_frames Events.animationEvent (Stall t) s (fst s));
      [discriminate | assumption].
  - apply (host_step_frames Events.animationEvent (Frame ts) s (fst s));
      [discriminate | assumption].
Qed.

Lemma sole_timer_length (handle : option Z) (ts : list scheduled) :
  sole_timer handle ts -> (List.length ts <= 1)%nat.
Proof.
  intros [H|(x & H & _)]; subst; simpl; lia.
Qed.

Lemma sole_frame_length (handle : option Z) (fs : list frame_request) :
  sole_frame handle fs -> (List.length fs <= 1)%nat.
Proof.
  intros [H|(x & H & _)]; subst; simpl; lia.
Qed.

Lemma host_step_log {S : Type} (call : list value -> S * host -> S * host)
    (e : event) (s : S * host) :
  (forall args, e <> Call args) ->
  exists ds, log (snd (step call e s)) = log (snd s) ++ ds /\ deferred_only ds.
Proof.
  intros Hcall. destruct e as [args|t|t|ts]; cbn [step fst snd].
  - exfalso. apply (Hcall args). reflexivity.
  - apply advance_log.
  - exists []. rewrite app_nil_r. split; [reflexivity|constructor].
  - destruct (render_frame_spec ts (snd s)) as (_ & _ & _ & _ & Hl).
    rewrite Hl. eexists. split; [reflexivity|]. apply deferred_only_map.
Qed.

(** The log of a [throttle] instance only grows. *)
Lemma throttle_step_log (timeout : Z) (ele : bool) (init : list value)
    (e : event) (s : throttle_state * host) :
  exists l, log (snd (step (Part000.throttle callback timeout ele init) e s))
            = log (snd s) ++ l.
Proof.
  destruct e as [args|t|t|ts].
  - destruct s as [st h]. simpl. unfold Part000.throttle.
    destruct (longer_than timeout (now h) (lastCall st)).
    + destruct (callback h args); [|destruct (timer st)]; simpl;
        eexists; reflexivity.
    + destruct (ele && is_undefined (timer st)); simpl;
        exists []; rewrite app_nil_r; reflexivity.
  - destruct (host_step_log (Part000.throttle callback timeout ele init) (Advance t) s)
      as (ds & H & _); [discriminate|]. exists ds. exact H.
  - destruct (host_step_log (Part000.throttle callback timeout ele init) (Stall t) s)
      as (ds & H & _); [discriminate|]. exists ds. exact H.
  - destruct (host_step_log (Part000.throttle callback timeout ele init) (Frame ts) s)
      as (ds & H & _); [discriminate|]. exists ds. exact H.
Qed.

Lemma throttle_run_log (timeout : Z) (ele : bool) (init : list value)
    (es : list event) :
  forall s, exists l,
    log (snd (run (Part000.throttle callback timeout ele init) es s)) = log (snd s) ++ l.
Proof.
  induction es as [|e es IH]; intros s.
  - exists []. rewrite app_nil_r. reflexivity.
  - rewrite run_cons.
    destruct (IH (step (Part000.throttle callback timeout ele init) e s)) as (l2 & H2).
    destruct (throttle_step_log timeout ele init e s) as (l1 & H1).
    exists (l1 ++ l2). rewrite H2, H1, app_assoc. reflexivity.
Qed.

(** With a stale handle (it names a timer that has run), a [throttle]
    instance arms nothing and invokes nothing until the next immediate
    invocation. *)
Lemma throttle_stale_run (timeout : Z) (ele : bool) (init : list value)
    (id : Z) (es : list event) :
  forall s,
    timer (fst s) = Some id -> timers (snd s) = [] -> frames (snd s) = [] ->
    let s' := run (Part000.throttle callback timeout ele init) es s in
    count_origin Immediate (log (snd s')) = count_origin Immediate (log (snd s)) ->
    log (snd s') = log (snd s) /\ fst s' = fst s /\ timers (snd s') = [].
Proof.
  induction es as [|e es IH]; intros s Hid Hts Hfs; cbv zeta; [simpl; auto|].
  rewrite run_cons. intros Hcount.
  destruct (throttle_step_log timeout ele init e s) as (l1 & Hl1).
  destruct (throttle_run_log timeout ele init es
              (step (Part000.throttle callback timeout ele init) e s)) as (l2 & Hl2).
  set (s1 := step (Part000.throttle callback timeout ele init) e s) in *.
  rewrite Hl2, Hl1 in Hcount.
  rewrite !count_origin_app in Hcount.
  assert (Hs1 : log (snd s1) = log (snd s) /\ fst s1 = fst s /\
                timers (snd s1) = [] /\ frames (snd s1) = []).
  { subst s1. destruct e as [args|t|t|ts]; cbn [step fst snd] in *.
    - destruct s as [st h]. simpl in *. unfold Part000.throttle in *.
      destruct (longer_than timeout (now h) (lastCall st)).
      + exfalso. rewrite Hid in Hl1.
        destruct (callback h args); simpl in Hl1;
          apply app_inv_head in Hl1; subst l1;
          unfold count_origin in Hcount; simpl in Hcount; lia.
      + rewrite Hid, andb_false_r. simpl. auto.
    - rewrite advance_idle by assumption. simpl. auto.
    - simpl. auto.
    - destruct (render_frame_spec ts (snd s)) as (_ & _ & Ht & Hf & Hl).
      rewrite Hl, Ht, Hf, Hfs, app_nil_r. auto. }
  destruct Hs1 as (Hlog1 & Hfst1 & Hts1 & Hfs1).
  destruct (IH s1) as (Ha & Hb & Hc); try assumption.
  - rewrite Hfst1. assumption.
  - cbv zeta. rewrite Hl2, Hlog1. rewrite count_origin_app. lia.
  - rewrite Ha, Hb, Hc. auto.
Qed.

(** A single pending [setTimeout] that is due and not late runs at its due
    time. *)
Lemma advance_single_log (t : Z) (h : host) (x : scheduled) :
  timers h = [x] -> t_repeat x = None -> t_due x <= t -> clock h <= t_due x ->
  log (advance t h) =
    log h ++ [{| e_origin := Deferred; e_time := t_due x; e_args := t_args x |}]
  /\ timers (advance t h) = [].
Proof.
  intros Hts Hrep Hdue Hclock. rewrite (advance_single t h x) by assumption.
  destruct (Z.leb_spec (t_due x) t); [|lia]. simpl.
  rewrite Z.max_r by assumption. auto.
Qed.

(** A single pending [setTimeout] that is not due yet stays. *)
Lemma advance_single_wait (t : Z) (h : host) (x : scheduled) :
  timers h = [x] -> t_repeat x = None -> t < t_due x ->
  advance t h = set_clock t h.
Proof.
  intros Hts Hrep Hlt. rewrite (advance_single t h x) by assumption.
  destruct (Z.leb_spec (t_due x) t); [lia|reflexivity].
Qed.

(** The immediate path of [throttle], when the callback returns or no
    handle is stored. *)
Lemma part000_throttle_immediate (timeout : Z) (ele : bool)
    (init args : list value) (st : throttle_state) (h : host) :
  longer_than timeout (now h) (lastCall st) = true ->
  sole_timer (timer st) (timers h) ->
  callback h args = false \/ timer st = None ->
  let s' := Part000.throttle callback timeout ele init args (st, h) in
  fst s' = {| lastCall := Some (now h); timer := None |} /\
  timers (snd s') = [] /\
  log (snd s') =
    log h ++ [{| e_origin := Immediate; e_time := now h; e_args := args |}] /\
  clock (snd s') = clock h.
Proof.
  intros Hlong Hsole Hok. cbv zeta. unfold Part000.throttle. rewrite Hlong.
  destruct (callback h args).
  - destruct Hok as [Hcb|Hnone]; [discriminate|].
    rewrite Hnone in *. simpl. rewrite (sole_timer_none _ Hsole). auto.
  - destruct (timer st) as [id|]; simpl.
    + rewrite (sole_timer_clear id) by assumption. auto.
    + rewrite (sole_timer_none _ Hsole). auto.
Qed.

(** The path of [throttle] that arms the trailing call. *)
Lemma part000_throttle_arm (timeout : Z) (init args : list value)
    (st : throttle_state) (h : host) :
  longer_than timeout (now h) (lastCall st) = false ->
  timer st = None -> timers h = [] ->
  let s' := Part000.throttle callback timeout true init args (st, h) in
  fst s' = {| lastCall := lastCall st; timer := Some (next_id h) |} /\
  timers (snd s') = [{| t_id := next_id h;
                        t_due := clock h + Z.max 0 timeout;
                        t_repeat := None; t_args := args ++ init |}] /\
  log (snd s') = log h /\
  clock (snd s') = clock h.
Proof.
  intros Hlong Htimer Hts. cbv zeta. unfold Part000.throttle.
  rewrite Hlong, Htimer. simpl. rewrite Hts. auto.
Qed.

(** Calls made during the cooldown while the trailing call is armed change
    nothing but the clock. *)
Lemma part000_throttle_cooldown (timeout : Z) (ele : bool) (init : list value)
    (t1 : Z) (x : scheduled) (rest : list (Z * list value)) :
  forall s,
    lastCall (fst s) = Some t1 -> timer (fst s) = Some (t_id x) ->
    timers (snd s) = [x] -> t_repeat x = None ->
    t1 + timeout <= t_due x -> clock (snd s) < t1 + timeout ->
    Forall (fun c => fst c < t1 + timeout) rest ->
    let s' := run (Part000.throttle callback timeout ele init) (timed rest) s in
    fst s' = fst s /\ timers (snd s') = [x] /\
    log (snd s') = log (snd s) /\ clock (snd s') < t1 + timeout.
Proof.
  induction rest as [|[t a] rest IH];
    intros s Hlast Htimer Hts Hrep Hdue Hclock Hall; cbv zeta.
  - simpl. auto.
  - inversion Hall as [|? ? Ht Hrest]; subst. simpl in Ht.
    change (timed ((t, a) :: rest)) with (Advance t :: Call a :: timed rest).
    rewrite !run_cons. cbn [step fst snd].
    rewrite (advance_single_wait t (snd s) x) by (assumption || lia).
    assert (Hcall : Part000.throttle callback timeout ele init a
                      (fst s, set_clock t (snd s))
                    = (fst s, set_clock t (snd s))).
    { unfold Part000.throttle. rewrite Hlast, Htimer, andb_false_r.
      unfold longer_than, now. simpl.
      destruct (Z.ltb_spec timeout (Z.max (clock (snd s)) t - t1)); [lia|].
      reflexivity. }
    rewrite Hcall.
    destruct (IH (fst s, set_clock t (snd s))) as (Ha & Hb & Hc & Hd);
      simpl; try assumption; [lia|].
    simpl in *. auto.
Qed.

(** A burst of [throttle] calls that opens with an immediate invocation
    and lasts less than [timeout]: one immediate invocation, and one
    trailing invocation [timeout] after the second call, with the second
    call's arguments followed by the factory-time arguments. *)
Lemma part000_throttle_burst (timeout : Z) (init : list value)
    (st : throttle_state) (h : host)
    (a1 : list value) (t2 : Z) (a2 : list value)
    (rest : list (Z * list value)) (T : Z) :
  sole_timer (timer st) (timers h) ->
  longer_than timeout (now h) (lastCall st) = true ->
  callback h a1 = false \/ timer st = None ->
  Forall (fun c => now h <= fst c < now h + timeout) ((t2, a2) :: rest) ->
  t2 + timeout <= T ->
  log (snd (run (Part000.throttle callback timeout true init)
              (Call a1 :: timed ((t2, a2) :: rest) ++ [Advance T]) (st, h))) =
  log h ++ [{| e_origin := Immediate; e_time := now h; e_args := a1 |};
            {| e_origin := Deferred; e_time := t2 + timeout;
               e_args := a2 ++ init |}].
Proof.
  intros Hsole Hlong Hok Hall HT.
  inversion Hall as [|? ? Ht2 Hrest]; subst. simpl in Ht2. unfold now in *.
  change (Call a1 :: timed ((t2, a2) :: rest) ++ [Advance T])
    with (Call a1 :: Advance t2 :: Call a2 :: (timed rest ++ [Advance T])).
  rewrite !run_cons, run_app. cbn [step].
  destruct (part000_throttle_immediate timeout true init a1 st h Hlong Hsole
              Hok) as (Hf1 & Hts1 & Hl1 & Hc1).
  set (s1 := Part000.throttle callback timeout true init a1 (st, h)) in *.
  rewrite (advance_idle t2 (snd s1)) by assumption.
  destruct (part000_throttle_arm timeout init a2 (fst s1)
              (set_clock t2 (snd s1))) as (Hf2 & Hts2 & Hl2 & Hc2).
  { rewrite Hf1. unfold longer_than, now. simpl. rewrite Hc1.
    apply Z.ltb_ge. lia. }
  { rewrite Hf1. reflexivity. }
  { assumption. }
  set (s2 := Part000.throttle callback timeout true init a2
               (fst s1, set_clock t2 (snd s1))) in *.
  simpl in Hts2, Hl2, Hc2. rewrite Hc1 in Hts2, Hc2.
  rewrite Z.max_r in Hts2, Hc2 by lia.
  rewrite (Z.max_r 0 timeout) in Hts2 by lia.
  set (x := {| t_id := next_id (snd s1); t_due := t2 + timeout;
               t_repeat := None; t_args := a2 ++ init |}) in *.
  destruct (part000_throttle_cooldown timeout true init (clock h) x rest s2)
    as (Hf3 & Hts3 & Hl3 & Hc3).
  { rewrite Hf2, Hf1. reflexivity. }
  { rewrite Hf2. reflexivity. }
  { assumption. }
  { reflexivity. }
  { simpl. lia. }
  { lia. }
  { eapply Forall_impl; [|exact Hrest]. simpl. intros c Hc. lia. }
  set (s3 := run (Part000.throttle callback timeout true init) (timed rest) s2) in *.
  change (run (Part000.throttle callback timeout true init) [Advance T] s3)
    with (fst s3, advance T (snd s3)).
  cbn [snd].
  destruct (advance_single_log T (snd s3) x) as (Hl4 & _);
    try assumption; try reflexivity; [simpl; lia|].
  rewrite Hl4, Hl3, Hl2, Hl1, <- app_assoc. reflexivity.
Qed.

(** A burst inside a cooldown while nothing is armed: the first call arms
    the trailing call, the others change nothing. *)
Lemma part000_throttle_cooldown_burst (timeout : Z) (init : list value)
    (st : throttle_state) (h : host) (l : Z)
    (a1 : list value) (rest : list (Z * list value)) (T : Z) :
  lastCall st = Some l -> timer st = None -> timers h = [] ->
  l <= now h ->
  Forall (fun c => fst c < l + timeout) ((now h, a1) :: rest) ->
  now h + timeout <= T ->
  log (snd (run (Part000.throttle callback timeout true init)
              (Call a1 :: timed rest ++ [Advance T]) (st, h))) =
  log h ++ [{| e_origin := Deferred; e_time := now h + timeout;
               e_args := a1 ++ init |}].
Proof.
  intros Hlast Htimer Hts Hl Hall HT. unfold now in *.
  inversion Hall as [|? ? Hnow Hrest]; subst. simpl in Hnow.
  rewrite run_cons, run_app. cbn [step].
  destruct (part000_throttle_arm timeout init a1 st h) as (Hf & Hts1 & Hl1 & Hc1);
    try assumption.
  { rewrite Hlast. simpl. apply Z.ltb_ge. unfold now. lia. }
  set (s1 := Part000.throttle callback timeout true init a1 (st, h)) in *.
  rewrite (Z.max_r 0 timeout) in Hts1 by lia.
  set (x := {| t_id := next_id h; t_due := clock h + timeout;
               t_repeat := None; t_args := a1 ++ init |}) in *.
  destruct (part000_throttle_cooldown timeout true init l x rest s1)
    as (_ & Hts3 & Hl3 & Hc3); try assumption; try reflexivity.
  { rewrite Hf. exact Hlast. }
  { rewrite Hf. reflexivity. }
  { simpl. lia. }
  { lia. }
  set (s3 := run (Part000.throttle callback timeout true init) (timed rest) s1) in *.
  change (run (Part000.throttle callback timeout true init) [Advance T] s3)
    with (fst s3, advance T (snd s3)). cbn [snd].
  destruct (advance_single_log T (snd s3) x) as (Hl4 & _);
    try assumption; try reflexivity; [simpl; lia|].
  rewrite Hl4, Hl3, Hl1. reflexivity.
Qed.

(** A single call on the immediate path, and time passing after it. *)
Lemma part000_throttle_single (timeout : Z) (ele : bool) (init : list value)
    (st : throttle_state) (h : host) (a1 : list value) (T : Z) :
  sole_timer (timer st) (timers h) ->
  longer_than timeout (now h) (lastCall st) = true ->
  callback h a1 = false \/ timer st = None ->
  log (snd (run (Part000.throttle callback timeout ele init)
              [Call a1; Advance T] (st, h))) =
  log h ++ [{| e_origin := Immediate; e_time := now h; e_args := a1 |}].
Proof.
  intros Hsole Hlong Hok. rewrite !run_cons. cbn [step run fold_left].
  destruct (part000_throttle_immediate timeout ele init a1 st h Hlong Hsole
              Hok) as (_ & Hts & Hl & _).
  cbn [snd]. rewrite (advance_idle T _ Hts). exact Hl.
Qed.

(** Once a [finalEvent] call has armed its timer, the calls of a burst keep
    replacing it, and the one armed by the last call is the one that runs. *)
Lemma finalEvent_armed_burst (timeout : Z) (T : Z)
    (rest : list (Z * list value)) :
  forall s x t a,
    fst s = Some (t_id x) -> timers (snd s) = [x] -> t_repeat x = None ->
    t_due x = t + timeout -> t_args x = a -> clock (snd s) = t ->
    0 <= timeout -> spaced timeout t rest ->
    fst (last rest (t, a)) + timeout <= T ->
    log (snd (run (Events.finalEvent timeout)
                (timed rest ++ [Advance T]) s)) =
    log (snd s) ++ [{| e_origin := Deferred;
                       e_time := fst (last rest (t, a)) + timeout;
                       e_args := snd (last rest (t, a)) |}].
Proof.
  induction rest as [|[t' a'] rest IH];
    intros s x t a Hf Hts Hrep Hdue Hargs Hclock Hpos Hsp HT.
  - cbn [last fst snd timed app] in *.
    change (run (Events.finalEvent timeout) [Advance T] s)
      with (fst s, advance T (snd s)). cbn [snd].
    destruct (advance_single_log T (snd s) x) as (Hl & _);
      try assumption; try lia.
    rewrite Hl, Hdue, Hargs. reflexivity.
  - destruct Hsp as [Ht' Hsp]. rewrite last_cons in HT |- *.
    change (timed ((t', a') :: rest) ++ [Advance T])
      with (Advance t' :: Call a' :: (timed rest ++ [Advance T])).
    rewrite !run_cons. cbn [step fst snd].
    rewrite (advance_single_wait t' (snd s) x) by (assumption || lia).
    destruct (finalEvent_call timeout a' (fst s, set_clock t' (snd s)))
      as (Hf2 & Hts2 & Hl2 & Hc2 & _).
    { unfold finalEvent_inv. simpl. rewrite Hf, Hts.
      right. exists x. auto. }
    cbn [fst snd set_clock clock next_id log] in Hf2, Hts2, Hl2, Hc2.
    rewrite (IH _ {| t_id := next_id (snd s);
                     t_due := Z.max (clock (snd s)) t' + Z.max 0 timeout;
                     t_repeat := None; t_args := a' |} t' a' Hf2 Hts2);
      cbn [t_repeat t_due t_args]; try reflexivity; try assumption.
    + rewrite Hl2. reflexivity.
    + lia.
    + lia.
Qed.

(** A [finalEvent] wrapper never adds an immediate invocation to the log. *)
Lemma finalEvent_no_immediate (timeout : Z) (es : list event) :
  forall s,
    count_origin Immediate (log (snd (run (Events.finalEvent timeout) es s)))
    = count_origin Immediate (log (snd s)).
Proof.
  induction es as [|e es IH]; intros s; [reflexivity|].
  rewrite run_cons, IH.
  destruct e as [args|t|t|ts].
  - destruct s as [[id|] h]; reflexivity.
  - destruct (host_step_log (Events.finalEvent timeout) (Advance t) s)
      as (ds & Hl & Hd); [discriminate|].
    rewrite Hl, count_origin_app, (count_immediate_deferred ds) by assumption.
    lia.
  - destruct (host_step_log (Events.finalEvent timeout) (Stall t) s)
      as (ds & Hl & Hd); [discriminate|].
    rewrite Hl, count_origin_app, (count_immediate_deferred ds) by assumption.
    lia.
  - destruct (host_step_log (Events.finalEvent timeout) (Frame ts) s)
      as (ds & Hl & Hd); [discriminate|].
    rewrite Hl, count_origin_app, (count_immediate_deferred ds) by assumption.
    lia.
Qed.

Lemma part000_animationEvent_inv_step (init : list value) (e : event)
    (s : option Z * host) :
  animationEvent_inv s ->
  animationEvent_inv (step (Part000.animationEvent init) e s).
Proof.
  intros Hinv. destruct e as [args|t|t|ts].
  - destruct (part000_animationEvent_call init args s Hinv) as (Hf & Ht & _).
    unfold animationEvent_inv. simpl. rewrite Hf, Ht.
    right. eexists. split; reflexivity.
  - apply (host_step_frames (Part000.animationEvent init) (Advance t) s (fst s));
      [discriminate | assumption].
  - apply (host_step_frames (Part000.animationEvent init) (Stall t) s (fst s));
      [discriminate | assumption].
  - apply (host_step_frames (Part000.animationEvent init) (Frame ts) s (fst s));
      [discriminate | assumption].
Qed.

(** After a burst of [animationEvent] calls the only pending request is the
    one made by the last call. *)
Lemma animationEvent_calls (rest : list (list value)) :
  forall s a,
    animationEvent_inv s ->
    let s' := run Events.animationEvent (map Call (a :: rest)) s in
    (exists id, frames (snd s') =
       [{| f_id := id; f_body := fun time => last rest a ++ [Num time] |}]) /\
    log (snd s') = log (snd s) /\ clock (snd s') = clock (snd s).
Proof.
  induction rest as [|a' rest IH]; intros s a Hinv; cbv zeta.
  - change (run Events.animationEvent (map Call [a]) s)
      with (Events.animationEvent a s).
    destruct (animationEvent_call a s Hinv) as (_ & Hf & Hl & Hc & _).
    split; [eexists; exact Hf | auto].
  - change (map Call (a :: a' :: rest)) with (Call a :: map Call (a' :: rest)).
    rewrite run_cons, last_cons.
    destruct (IH (step Events.animationEvent (Call a) s) a') as (Hf & Hl & Hc).
    { apply animationEvent_inv_step, Hinv. }
    destruct (animationEvent_call a s Hinv) as (_ & _ & Hl1 & Hc1 & _).
    cbn [step] in *. rewrite Hl, Hc. auto.
Qed.

Lemma part000_animationEvent_calls (init : list value)
    (rest : list (list value)) :
  forall s a,
    animationEvent_inv s ->
    let s' := run (Part000.animationEvent init) (map Call (a :: rest)) s in
    (exists id, frames (snd s') =
       [{| f_id := id;
           f_body := fun time => Num time :: last rest a ++ init |}]) /\
    log (snd s') = log (snd s) /\ clock (snd s') = clock (snd s).
Proof.
  induction rest as [|a' rest IH]; intros s a Hinv; cbv zeta.
  - change (run (Part000.animationEvent init) (map Call [a]) s)
      with (Part000.animationEvent init a s).
    destruct (part000_animationEvent_call init a s Hinv)
      as (_ & Hf & Hl & Hc & _).
    split; [eexists; exact Hf | auto].
  - change (map Call (a :: a' :: rest)) with (Call a :: map Call (a' :: rest)).
    rewrite run_cons, last_cons.
    destruct (IH (step (Part000.animationEvent init) (Call a) s) a')
      as (Hf & Hl & Hc).
    { apply part000_animationEvent_inv_step, Hinv. }
    destruct (part000_animationEvent_call init a s Hinv)
      as (_ & _ & Hl1 & Hc1 & _).
    cbn [step] in *. rewrite Hl, Hc. auto.
Qed.

(** [src/events.ts]: a burst of [animationEvent] calls before the next
    frame results in one invocation, with the last call's arguments
    followed by the frame's time stamp. *)
Lemma animationEvent_burst (s : option Z * host) (a : list value)
    (rest : list (list value)) (ts : Z) :
  animationEvent_inv s ->
  log (snd (run Events.animationEvent (map Call (a :: rest) ++ [Frame ts]) s)) =
  log (snd s) ++ [{| e_origin := Deferred; e_time := clock (snd s);
                     e_args := last rest a ++ [Num ts] |}].
Proof.
  intros Hinv. rewrite run_app.
  destruct (animationEvent_calls rest s a Hinv) as ((id & Hf) & Hl & Hc).
  set (s' := run Events.animationEvent (map Call (a :: rest)) s) in *.
  change (run Events.animationEvent [Frame ts] s')
    with (fst s', render_frame ts (snd s')). cbn [snd].
  destruct (render_frame_spec ts (snd s')) as (_ & _ & _ & _ & Hlog).
  rewrite Hlog, Hf, Hl, Hc. reflexivity.
Qed.

(** [part_000]: the same burst results in one invocation too, but the
    frame's time stamp comes first, before the last call's arguments and
    the factory-time arguments. *)
Lemma part000_animationEvent_burst (init : list value)
    (s : option Z * host) (a : list value)
    (rest : list (list value)) (ts : Z) :
  animationEvent_inv s ->
  log (snd (run (Part000.animationEvent init)
              (map Call (a :: rest) ++ [Frame ts]) s)) =
  log (snd s) ++ [{| e_origin := Deferred; e_time := clock (snd s);
                     e_args := Num ts :: last rest a ++ init |}].
Proof.
  intros Hinv. rewrite run_app.
  destruct (part000_animationEvent_calls init rest s a Hinv)
    as ((id & Hf) & Hl & Hc).
  set (s' := run (Part000.animationEvent init) (map Call (a :: rest)) s) in *.
  change (run (Part000.animationEvent init) [Frame ts] s')
    with (fst s', render_frame ts (snd s')). cbn [snd].
  destruct (render_frame_spec ts (snd s')) as (_ & _ & _ & _ & Hlog).
  rewrite Hlog, Hf, Hl, Hc. reflexivity.
Qed.

(** [startInterval] when [handler()] returns: the interval is set and its
    handle returned. *)
Lemma startInterval_returns (timeout : option Z) (args : list value)
    (h : host) :
  callback h [] = false ->
  Events.startInterval callback timeout args h =
  (Some (next_id h),
   snd (setInterval args (Events.delay timeout) (invoke Immediate [] h))).
Proof.
  intros Hcb. unfold Events.startInterval. rewrite Hcb. reflexivity.
Qed.

(** [startInterval] when [handler()] throws: the one invocation has been
    made, no interval is set and there is no handle. *)
Lemma startInterval_throws (timeout : option Z) (args : list value)
    (h : host) :
  callback h [] = true ->
  Events.startInterval callback timeout args h =
  (None, invoke Immediate [] h).
Proof.
  intros Hcb. unfold Events.startInterval. rewrite Hcb. reflexivity.
Qed.

(** What [startInterval] does when [handler()] returns, in both source
    files: one immediate invocation with no arguments, then a
    [setInterval] that passes [args], whose handle is returned and cancels
    it. *)
Lemma startInterval_spec (timeout : option Z) (args : list value) (h : host) :
  callback h [] = false ->
  let r := Events.startInterval callback timeout args h in
  fst r = Some (next_id h) /\
  log (snd r) =
    log h ++ [{| e_origin := Immediate; e_time := now h; e_args := [] |}] /\
  timers (snd r) =
    timers h ++ [{| t_id := next_id h;
                    t_due := now h + period (Events.delay timeout);
                    t_repeat := Some (Events.delay timeout);
                    t_args := args |}] /\
  (Forall (fun x => t_id x <> next_id h) (timers h) ->
   timers (clearInterval (next_id h) (snd r)) = timers h).
Proof.
  intros Hcb. cbv zeta. rewrite (startInterval_returns timeout args h Hcb).
  simpl. repeat split.
  intros Hfresh. rewrite filter_app. simpl. rewrite Z.eqb_refl. simpl.
  rewrite app_nil_r. induction Hfresh as [|x l Hx _ IH]; [reflexivity|].
  simpl. destruct (Z.eqb_spec (t_id x) (next_id h)); [contradiction|].
  simpl. rewrite IH. reflexivity.
Qed.

Lemma part000_startInterval_same (timeout : option Z) (args : list value)
    (h : host) :
  Part000.startInterval callback timeout args h =
  Events.startInterval callback timeout args h.
Proof. reflexivity. Qed.

(** The invocations of an interval timer first due at [d]: the [k] of them
    at [d], [d + p], [d + 2p], ... *)
Lemma run_timers_interval (t p : Z) (args : list value) :
  forall (k : nat) (h : host) (x : scheduled) (n : nat),
    timers h = [x] -> t_repeat x = Some p -> t_args x = args ->
    clock h <= t_due x ->
    t < t_due x + Z.of_nat k * period p ->
    ((0 < k)%nat -> t_due x + (Z.of_nat k - 1) * period p <= t) ->
    (k <= n)%nat ->
    log (run_timers n t h) =
      log h ++ map (fun i => {| e_origin := Deferred;
                                e_time := t_due x + Z.of_nat i * period p;
                                e_args := args |}) (seq 0 k) /\
    timers (run_timers n t h) =
      [{| t_id := t_id x; t_due := t_due x + Z.of_nat k * period p;
          t_repeat := Some p; t_args := args |}].
Proof.
  assert (Hp : 0 < period p) by (unfold period; lia).
  induction k as [|k IH]; intros h x n Hts Hrep Hargs Hclock Hlt Hge Hn.
  - assert (Hnone : take_due t (timers h) = None).
    { rewrite Hts. simpl. destruct (Z.leb_spec (t_due x) t); [lia|reflexivity]. }
    assert (Hrun : run_timers n t h = h).
    { destruct n; simpl; [|rewrite Hnone]; reflexivity. }
    rewrite Hrun, app_nil_r, Hts. simpl. rewrite Z.add_0_r.
    destruct x; simpl in *; subst; auto.
  - destruct n as [|n]; [lia|].
    assert (Hdue : t_due x <= t) by (specialize (Hge ltac:(lia)); nia).
    assert (Htake : take_due t (timers h) = Some (x, again x)).
    { rewrite Hts. simpl. destruct (Z.leb_spec (t_due x) t); [|lia].
      rewrite app_nil_r. reflexivity. }
    cbn [run_timers]. rewrite Htake. unfold again. rewrite Hrep.
    set (x' := {| t_id := t_id x; t_due := t_due x + period p;
                  t_repeat := Some p; t_args := t_args x |}).
    destruct (IH (fire x [x'] h) x' n) as (Hl & Ht); try reflexivity.
    + assumption.
    + simpl. lia.
    + simpl. lia.
    + intros Hk. simpl. specialize (Hge ltac:(lia)). lia.
    + lia.
    + rewrite Hl, Ht. subst x'.
      cbn [fire invoke log clock t_due t_id t_args seq map].
      rewrite Nat2Z.inj_succ. split.
      * rewrite <- app_assoc. cbn [app]. rewrite Hargs, Z.max_r by lia.
        f_equal. f_equal; [f_equal; lia|].
        rewrite <- seq_shift, map_map.
        apply map_ext. intros i. f_equal. lia.
      * f_equal. f_equal. lia.
Qed.

(** After [startInterval] on a host with nothing else pending, if
    [handler()] returns, the handler has run once with no arguments and
    then once per period with [args]; clearing the returned handle stops
    it. *)
Lemma startInterval_repeats (timeout : option Z) (args : list value)
    (h : host) (k : nat) (t t' : Z) :
  timers h = [] ->
  callback h [] = false ->
  let p := period (Events.delay timeout) in
  now h + Z.of_nat k * p <= t < now h + (Z.of_nat k + 1) * p ->
  let r := Events.startInterval callback timeout args h in
  log (advance t (snd r)) =
    log h ++ {| e_origin := Immediate; e_time := now h; e_args := [] |}
          :: map (fun i => {| e_origin := Deferred;
                              e_time := now h + (Z.of_nat i + 1) * p;
                              e_args := args |}) (seq 0 k) /\
  log (advance t' (clearInterval (next_id h) (advance t (snd r)))) =
    log (advance t (snd r)).
Proof.
  intros Hts Hcb p Ht r. unfold now in *.
  assert (Hp : 0 < p) by (unfold p, period; lia).
  set (x := {| t_id := next_id h; t_due := clock h + p;
               t_repeat := Some (Events.delay timeout); t_args := args |}).
  assert (Hsnd : snd r = snd (setInterval args (Events.delay timeout)
                                (invoke Immediate [] h))).
  { unfold r. rewrite (startInterval_returns timeout args h Hcb). reflexivity. }
  rewrite Hsnd.
  set (h1 := snd (setInterval args (Events.delay timeout)
                    (invoke Immediate [] h))) in *.
  assert (Hr : timers h1 = [x]).
  { unfold h1. simpl. rewrite Hts. reflexivity. }
  destruct (run_timers_interval t (Events.delay timeout) args k h1 x
              (budget t (timers h1))) as (Hl & Htm);
    try assumption; try reflexivity.
  - simpl. lia.
  - fold p. simpl. lia.
  - fold p. simpl. intros Hk. nia.
  - rewrite Hr. simpl. unfold firings. simpl. fold p.
    destruct (Z.ltb_spec t (clock h + p)) as [Hlt|Hge].
    + assert (k = O) by nia. lia.
    + assert (Z.of_nat k - 1 <= (t - (clock h + p)) / p)
        by (apply Z.div_le_lower_bound; nia).
      lia.
  - fold p in Hl, Htm.
    assert (Hlog : log (advance t h1) =
                   log (run_timers (budget t (timers h1)) t h1))
      by reflexivity.
    assert (Htms : timers (advance t h1) =
                   timers (run_timers (budget t (timers h1)) t h1))
      by reflexivity.
    split.
    + rewrite Hlog, Hl. unfold h1. cbn [setInterval snd invoke log t_due x].
      rewrite <- app_assoc. cbn [app]. f_equal. f_equal.
      apply map_ext. intros i. f_equal. lia.
    + assert (Hcl : timers (clearInterval (next_id h) (advance t h1)) = []).
      { unfold clearInterval, clearTimeout. cbn [timers].
        rewrite Htms, Htm.
        cbn [filter t_id x]. rewrite Z.eqb_refl. reflexivity. }
      rewrite (advance_idle t' _ Hcl). reflexivity.
Qed.

(* ================================================================== *)
(** ** The claims                                                       *)
(* ================================================================== *)

(** C8. For every wrapper instance of [throttle], [finalEvent] and
    [animationEvent] and every sequence of calls, timer runs, stalls and
    rendered frames, at most one deferred invocation is pending in the
    state reached.  A further call arms a deferred invocation only when
    none is pending ([throttle]: the handle counter moves only if the
    pending list was empty), or replaces the pending one, so that the new
    one is alone ([finalEvent], [animationEvent]). *)
Theorem at_most_one_pending (timeout : Z) (executeLastEvent : bool)
    (es : list event) (args : list value) (t0 : Z) :
  (let s := run (Events.throttle callback timeout executeLastEvent) es
              (throttle_init, fresh t0) in
   let s' := Events.throttle callback timeout executeLastEvent args s in
   (List.length (timers (snd s)) <= 1)%nat /\
   (List.length (timers (snd s')) <= 1)%nat /\
   (timers (snd s') = timers (snd s) \/
    timers (snd s') = [] \/
    timers (snd s) = [] /\
    timers (snd s') = [{| t_id := next_id (snd s);
                          t_due := clock (snd s) + Z.max 0 timeout;
                          t_repeat := None; t_args := args |}])) /\
  (let s := run (Events.finalEvent timeout) es (None, fresh t0) in
   let s' := Events.finalEvent timeout args s in
   (List.length (timers (snd s)) <= 1)%nat /\
   timers (snd s') = [{| t_id := next_id (snd s);
                         t_due := clock (snd s) + Z.max 0 timeout;
                         t_repeat := None; t_args := args |}]) /\
  (let s := run Events.animationEvent es (None, fresh t0) in
   let s' := Events.animationEvent args s in
   (List.length (frames (snd s)) <= 1)%nat /\
   map f_id (frames (snd s')) = [next_id (snd s)]).
Proof.
  split; [|split].
  - assert (Hinv : throttle_inv (run (Events.throttle callback timeout executeLastEvent)
                                   es (throttle_init, fresh t0)))
      by apply events_throttle_inv_run, throttle_inv_init.
    assert (Hinv' : throttle_inv
              (run (Events.throttle callback timeout executeLastEvent)
                 (es ++ [Call args]) (throttle_init, fresh t0)))
      by apply events_throttle_inv_run, throttle_inv_init.
    rewrite run_app in Hinv'. simpl in Hinv'.
    destruct (run (Events.throttle callback timeout executeLastEvent) es
                (throttle_init, fresh t0)) as [st h].
    destruct Hinv as [Hsole _]. destruct Hinv' as [Hsole' _].
    cbv zeta. split; [eapply sole_timer_length; eassumption|].
    split; [eapply sole_timer_length; eassumption|].
    simpl in *. unfold Events.throttle.
    destruct (longer_than timeout (now h) (lastCall st)).
    + destruct (callback h args); [left; reflexivity|].
      right. left. destruct (timer st) as [id|]; simpl.
      * apply sole_timer_clear; assumption.
      * apply sole_timer_none; assumption.
    + destruct executeLastEvent; simpl; [|left; reflexivity].
      destruct (timer st) as [id|]; simpl; [left; reflexivity|].
      right. right. rewrite (sole_timer_none _ Hsole). split; reflexivity.
  - assert (Hinv : finalEvent_inv (run (Events.finalEvent timeout) es
                                     (None, fresh t0))).
    { apply run_invariant; [intros e s; apply finalEvent_inv_step|].
      left. reflexivity. }
    cbv zeta. split; [eapply sole_timer_length; exact Hinv|].
    apply (finalEvent_call timeout args _ Hinv).
  - assert (Hinv : animationEvent_inv (run Events.animationEvent es
                                         (None, fresh t0))).
    { apply run_invariant; [intros e s; apply animationEvent_inv_step|].
      left. reflexivity. }
    cbv zeta. split; [eapply sole_frame_length; exact Hinv|].
    destruct (animationEvent_call args _ Hinv) as (_ & Hf & _).
    rewrite Hf. reflexivity.
Qed.

(** C4 (amended). A call of a [throttle] wrapper made when no immediate
    invocation has occurred yet, or more than [timeout] after the last
    one, invokes the callback at once with the call's arguments and sets
    [lastCall] to the current time.  If the callback returns, the pending
    deferred call is cancelled and its handle cleared; if it throws, the
    pending deferred call and the handle stay as they were.  A call made
    exactly [timeout] after the last immediate invocation is throttled: it
    invokes nothing and leaves [lastCall] as it was. *)
Theorem throttle_immediate_path (timeout : Z) (executeLastEvent : bool)
    (args : list value) (st : throttle_state) (h : host) :
  let s' := Events.throttle callback timeout executeLastEvent args (st, h) in
  ((lastCall st = None \/
    exists l, lastCall st = Some l /\ timeout < now h - l) ->
   log (snd s') =
     log h ++ [{| e_origin := Immediate; e_time := now h; e_args := args |}] /\
   lastCall (fst s') = Some (now h) /\
   (callback h args = false ->
    timer (fst s') = None /\
    timers (snd s') =
      match timer st with
      | Some id => filter (fun x => negb (t_id x =? id)) (timers h)
      | None => timers h
      end /\
    (sole_timer (timer st) (timers h) -> timers (snd s') = [])) /\
   (callback h args = true ->
    timer (fst s') = timer st /\ timers (snd s') = timers h)) /\
  (forall l, lastCall st = Some l -> now h - l = timeout ->
   log (snd s') = log h /\ lastCall (fst s') = Some l).
Proof.
  cbv zeta. unfold Events.throttle. split.
  - intros Hcond.
    assert (Hlong : longer_than timeout (now h) (lastCall st) = true).
    { destruct Hcond as [Hnone|(l & Hl & Hgt)].
      - rewrite Hnone. reflexivity.
      - rewrite Hl. simpl. apply Z.ltb_lt. assumption. }
    rewrite Hlong.
    destruct (callback h args).
    + simpl. repeat split; try reflexivity; discriminate.
    + destruct (timer st) as [id|]; simpl; repeat split;
        try reflexivity; try discriminate.
      * apply sole_timer_clear.
      * apply sole_timer_none.
  - intros l Hl Heq.
    assert (Hlong : longer_than timeout (now h) (lastCall st) = false).
    { rewrite Hl. simpl. apply Z.ltb_ge. lia. }
    rewrite Hlong.
    destruct (executeLastEvent && is_undefined (timer st)); simpl; auto.
Qed.

(** C7. In [throttle], a deferred trailing call that runs leaves [lastCall]
    unchanged.  In every state an instance can reach, [lastCall] is the
    time of the latest immediate invocation in the log, however many
    deferred invocations ran since; no step of the host changes it; and a
    call changes it only on the immediate path, to the current time. *)
Theorem throttle_lastCall_frame (timeout : Z) (executeLastEvent : bool)
    (es : list event) (t0 : Z) (e : event) :
  let call := Events.throttle callback timeout executeLastEvent in
  let s := run call es (throttle_init, fresh t0) in
  lastCall (fst s) = last_immediate (log (snd s)) /\
  (forall t, lastCall (fst (step call (Advance t) s)) = lastCall (fst s)) /\
  (lastCall (fst (step call e s)) = lastCall (fst s) \/
   exists args,
     e = Call args /\
     longer_than timeout (now (snd s)) (lastCall (fst s)) = true /\
     lastCall (fst (step call e s)) = Some (now (snd s))).
Proof.
  cbv zeta. split; [|split].
  - apply events_throttle_inv_run, throttle_inv_init.
  - reflexivity.
  - destruct (run (Events.throttle callback timeout executeLastEvent) es
                (throttle_init, fresh t0)) as [st h].
    destruct e as [args|t|t|ts]; try (left; reflexivity).
    simpl. unfold Events.throttle.
    destruct (longer_than timeout (now h) (lastCall st)) eqn:Hlong.
    + right. exists args.
      destruct (callback h args); [|destruct (timer st)]; simpl; auto.
    + left. destruct (executeLastEvent && is_undefined (timer st)); reflexivity.
Qed.

(** C9. In [throttle], the trailing call that runs does not clear the
    stored handle: with the armed timer [x] due by time [t], once the host
    has run it the handle still names it, although nothing is pending.  A
    call that arrives then, no more than [timeout] after the last immediate
    invocation, changes nothing at all: no trailing call is armed and the
    arguments are lost, whatever [executeLastEvent] is.  The handle stays
    until the next immediate invocation: over any further events during
    which no immediate invocation is made, nothing is invoked, nothing is
    armed and the closure variables keep their values. *)
Theorem throttle_stale_handle (timeout : Z) (executeLastEvent : bool)
    (args : list value) (st : throttle_state) (h : host)
    (x : scheduled) (l t : Z) :
  timers h = [x] -> t_repeat x = None -> timer st = Some (t_id x) ->
  frames h = [] -> t_due x <= t ->
  lastCall st = Some l -> now (advance t h) - l <= timeout ->
  let call := Events.throttle callback timeout executeLastEvent in
  let s1 := step call (Advance t) (st, h) in
  log (snd s1) =
    log h ++ [{| e_origin := Deferred; e_time := Z.max (clock h) (t_due x);
                 e_args := t_args x |}] /\
  timers (snd s1) = [] /\
  timer (fst s1) = Some (t_id x) /\
  call args s1 = s1 /\
  (forall es,
     count_origin Immediate (log (snd (run call es s1)))
     = count_origin Immediate (log (snd s1)) ->
     log (snd (run call es s1)) = log (snd s1) /\
     fst (run call es s1) = st /\
     timers (snd (run call es s1)) = []).
Proof.
  intros Hts Hrep Htimer Hfs Hdue Hlast Hnow. cbv zeta.
  cbn [step fst snd].
  assert (Hadv : advance t h = set_clock t (fire x [] h)).
  { rewrite (advance_single t h x) by assumption.
    destruct (Z.leb_spec (t_due x) t); [reflexivity|lia]. }
  assert (Hlong : longer_than timeout (now (advance t h)) (lastCall st) = false).
  { rewrite Hlast. simpl. apply Z.ltb_ge. assumption. }
  split; [rewrite Hadv; reflexivity|].
  split; [rewrite Hadv; reflexivity|].
  split; [assumption|].
  split.
  - unfold Events.throttle. rewrite Hlong, Htimer, andb_false_r. reflexivity.
  - intros es.
    rewrite <- (run_ext _ _ (part000_throttle_nil timeout executeLastEvent)).
    apply (throttle_stale_run timeout executeLastEvent [] (t_id x) es
             (st, advance t h)); cbn [fst snd].
    + assumption.
    + rewrite Hadv. reflexivity.
    + rewrite advance_frames. assumption.
Qed.

(** C3 (amended). For [throttle] with [executeLastEvent = true] and a
    burst of calls, all made within a window shorter than [timeout], seen
    at a time [T] at least [timeout] after every call of the burst.
    If the first call takes the immediate path (the first call on a fresh
    instance, or a call more than [timeout] after the last immediate
    invocation) and its callback returns, or no handle is stored, the
    callback is invoked exactly once at once, with the first call's
    arguments; a burst of that one call has no trailing invocation; a
    burst of two or more calls has exactly one, [timeout] after the second
    call and with the second call's arguments, the first throttled call,
    made while no timer was armed.
    If the whole burst falls inside a cooldown while no handle is stored,
    nothing is invoked at once and exactly one trailing call runs,
    [timeout] after the first call and with the first call's arguments.
    In both cases the arguments of the later calls are dropped. *)
Theorem throttle_burst (timeout : Z) (st : throttle_state) (h : host)
    (a1 : list value) (rest : list (Z * list value)) (T : Z) :
  sole_timer (timer st) (timers h) ->
  Forall (fun c => fst c + timeout <= T) ((now h, a1) :: rest) ->
  (longer_than timeout (now h) (lastCall st) = true ->
   callback h a1 = false \/ timer st = None ->
   Forall (fun c => now h <= fst c < now h + timeout) rest ->
   log (snd (run (Events.throttle callback timeout true)
               (Call a1 :: timed rest ++ [Advance T]) (st, h))) =
   log h ++ {| e_origin := Immediate; e_time := now h; e_args := a1 |}
         :: match rest with
            | [] => []
            | (t2, a2) :: _ =>
                [{| e_origin := Deferred; e_time := t2 + timeout;
                    e_args := a2 |}]
            end) /\
  (forall l,
     lastCall st = Some l -> timer st = None -> l <= now h ->
     Forall (fun c => fst c < l + timeout) ((now h, a1) :: rest) ->
     log (snd (run (Events.throttle callback timeout true)
                 (Call a1 :: timed rest ++ [Advance T]) (st, h))) =
     log h ++ [{| e_origin := Deferred; e_time := now h + timeout;
                  e_args := a1 |}]).
Proof.
  intros Hsole HT.
  inversion HT as [|? ? HT1 HTrest]; subst. simpl in HT1.
  split.
  - intros Hlong Hok Hwin.
    rewrite <- (run_ext _ _ (part000_throttle_nil timeout true)).
    destruct rest as [|[t2 a2] rest].
    + apply (part000_throttle_single timeout true [] st h a1 T);
        assumption.
    + inversion HTrest as [|? ? HT2 _]; subst. simpl in HT2.
      rewrite (part000_throttle_burst timeout [] st h a1 t2 a2 rest T)
        by assumption.
      rewrite app_nil_r. reflexivity.
  - intros l Hlast Htimer Hl Hcool.
    rewrite <- (run_ext _ _ (part000_throttle_nil timeout true)).
    rewrite (part000_throttle_cooldown_burst timeout [] st h l a1 rest T);
      try assumption.
    + rewrite app_nil_r. reflexivity.
    + rewrite Htimer in Hsole. apply sole_timer_none, Hsole.
Qed.

(** C5. For [finalEvent] with a delay [timeout >= 0]: every call leaves
    exactly the timer it arms pending (the one armed before is cancelled);
    a burst of calls, each less than [timeout] after the one before,
    results in exactly one invocation, [timeout] after the last call and
    with the last call's arguments; and no run of a [finalEvent] wrapper
    ever adds an immediate invocation. *)
Theorem finalEvent_burst (timeout : Z) (s : option Z * host)
    (a1 : list value) (rest : list (Z * list value)) (T : Z) :
  0 <= timeout ->
  finalEvent_inv s ->
  spaced timeout (now (snd s)) rest ->
  let final := last rest (now (snd s), a1) in
  fst final + timeout <= T ->
  timers (snd (Events.finalEvent timeout a1 s)) =
    [{| t_id := next_id (snd s); t_due := now (snd s) + timeout;
        t_repeat := None; t_args := a1 |}] /\
  log (snd (run (Events.finalEvent timeout)
              (Call a1 :: timed rest ++ [Advance T]) s)) =
    log (snd s) ++ [{| e_origin := Deferred; e_time := fst final + timeout;
                       e_args := snd final |}] /\
  (forall es s0,
     count_origin Immediate
       (log (snd (run (Events.finalEvent timeout) es s0)))
     = count_origin Immediate (log (snd s0))).
Proof.
  intros Hpos Hinv Hsp final HT. subst final. unfold now in *.
  destruct (finalEvent_call timeout a1 s Hinv) as (Hf & Hts & Hl & Hc & _).
  rewrite Z.max_r in Hts by assumption.
  split; [exact Hts|]. split; [|intros es s0; apply finalEvent_no_immediate].
  rewrite run_cons. cbn [step].
  rewrite (finalEvent_armed_burst timeout T rest _
             {| t_id := next_id (snd s); t_due := clock (snd s) + timeout;
                t_repeat := None; t_args := a1 |}
             (clock (snd s)) a1 Hf Hts);
    try reflexivity; try assumption.
  rewrite Hl. reflexivity.
Qed.

(** C6 (amended). For [initialEvent]: the callback is invoked at once with
    the call's arguments if and only if [lastCall] is undefined or more
    than [timeout] has passed since the time it holds.  A call on which
    the callback is not invoked, or is invoked and returns, sets
    [lastCall] to the current time; a call on which the invoked callback
    throws leaves [lastCall] as it was.  So [lastCall] holds the time of
    the previous call unless that call's callback threw. *)
Theorem initialEvent_fires_iff_quiet (timeout : Z) (args : list value)
    (prev : option Z) (h : host) :
  let s' := Events.initialEvent callback timeout args (prev, h) in
  let quiet := prev = None \/ exists l, prev = Some l /\ timeout < now h - l in
  (quiet /\
   log (snd s') =
     log h ++ [{| e_origin := Immediate; e_time := now h; e_args := args |}] /\
   fst s' = (if callback h args then prev else Some (now h))
   \/
   ~ quiet /\ log (snd s') = log h /\ fst s' = Some (now h)) /\
  timers (snd s') = timers h /\ frames (snd s') = frames h.
Proof.
  cbv zeta. unfold Events.initialEvent.
  destruct prev as [l|]; simpl.
  - destruct (Z.ltb_spec timeout (now h - l)) as [Hlt|Hge].
    + destruct (callback h args); simpl; (split; [|auto]); left;
        (split; [right; exists l; auto | auto]).
    + simpl. split; [|auto]. right. split; [|auto].
      intros [Hnone|(l' & Hl' & Hlt)]; [discriminate|].
      inversion Hl'; subst. lia.
  - destruct (callback h args); simpl; (split; [|auto]); left; auto.
Qed.

(** The variant of [part_000] appends the factory-time arguments to the
    call's arguments; the condition and the update of [lastCall] are the
    same. *)
Lemma part000_initialEvent_fires_iff_quiet (timeout : Z)
    (init args : list value) (prev : option Z) (h : host) :
  let s' := Part000.initialEvent callback timeout init args (prev, h) in
  fst s' =
    (if longer_than timeout (now h) prev && callback h (args ++ init)
     then prev else Some (now h)) /\
  log (snd s') =
    if longer_than timeout (now h) prev
    then log h ++ [{| e_origin := Immediate; e_time := now h;
                      e_args := args ++ init |}]
    else log h.
Proof.
  cbv zeta. unfold Part000.initialEvent.
  destruct (longer_than timeout (now h) prev); [|auto].
  destruct (callback h (args ++ init)); auto.
Qed.

(** C10. In [part_000], [throttle] takes factory-time arguments
    [initArguments] and treats its two paths differently: the immediate
    path invokes the callback with the call's arguments alone, the armed
    trailing call invokes it with the call's arguments followed by
    [initArguments]; with a non-empty [initArguments] the two argument
    lists differ. *)
Theorem part000_throttle_asymmetry (timeout : Z) (executeLastEvent : bool)
    (initArguments callArguments : list value)
    (st : throttle_state) (h : host) (T : Z) :
  initArguments <> [] ->
  timers h = [] ->
  now h + Z.max 0 timeout <= T ->
  (longer_than timeout (now h) (lastCall st) = true ->
   log (snd (Part000.throttle callback timeout executeLastEvent initArguments
               callArguments (st, h))) =
   log h ++ [{| e_origin := Immediate; e_time := now h;
                e_args := callArguments |}]) /\
  (longer_than timeout (now h) (lastCall st) = false ->
   timer st = None ->
   log (advance T (snd (Part000.throttle callback timeout true initArguments
                          callArguments (st, h)))) =
   log h ++ [{| e_origin := Deferred; e_time := now h + Z.max 0 timeout;
                e_args := callArguments ++ initArguments |}]) /\
  callArguments <> callArguments ++ initArguments.
Proof.
  intros Hinit Hts HT. split; [|split].
  - intros Hlong. unfold Part000.throttle. rewrite Hlong.
    destruct (callback h callArguments); [|destruct (timer st)]; reflexivity.
  - intros Hlong Htimer.
    destruct (part000_throttle_arm timeout initArguments callArguments st h
                Hlong Htimer Hts) as (_ & Hts' & Hl & Hc).
    set (x := {| t_id := next_id h; t_due := clock h + Z.max 0 timeout;
                 t_repeat := None; t_args := callArguments ++ initArguments |})
      in *.
    destruct (advance_single_log T _ x Hts') as (Hlog & _);
      try reflexivity.
    + exact HT.
    + rewrite Hc. simpl. lia.
    + rewrite Hlog, Hl. reflexivity.
  - intros Heq. apply Hinit.
    rewrite <- (app_nil_r callArguments) in Heq at 1.
    apply app_inv_head in Heq. symmetry. exact Heq.
Qed.

(* ================================================================== *)
(** ** Further facts about the host                                     *)
(* ================================================================== *)

Lemma run_timers_clock (t : Z) :
  forall n h, clock h <= clock (run_timers n t h).
Proof.
  induction n as [|n IH]; intros h; simpl; [lia|].
  destruct (take_due t (timers h)) as [[x ts']|]; [|lia].
  specialize (IH (fire x ts' h)). simpl in IH. lia.
Qed.

(** The clock never runs backwards. *)
Lemma advance_clock (t : Z) (h : host) :
  clock h <= clock (advance t h) /\ t <= clock (advance t h).
Proof.
  unfold advance. cbn [clock set_clock].
  pose proof (run_timers_clock t (budget t (timers h)) h). lia.
Qed.

Lemma host_step_clock {S : Type} (call : list value -> S * host -> S * host)
    (e : event) (s : S * host) :
  (forall args, e <> Call args) ->
  clock (snd s) <= clock (snd (step call e s)).
Proof.
  intros Hcall. destruct e as [args|t|t|ts]; cbn [step fst snd].
  - exfalso. apply (Hcall args). reflexivity.
  - apply advance_clock.
  - simpl. lia.
  - destruct (render_frame_spec ts (snd s)) as (Hc & _). lia.
Qed.

Lemma take_due_one_shot (t : Z) (ts : list scheduled) :
  Forall (fun x => t_repeat x = None) ts ->
  forall x ts', take_due t ts = Some (x, ts') ->
    List.length ts = S (List.length ts') /\
    Forall (fun x => t_repeat x = None) ts'.
Proof.
  induction 1 as [|y rest Hy Hrest IH]; simpl; intros x ts' H; [discriminate|].
  assert (Hagain : again y = []) by (unfold again; rewrite Hy; reflexivity).
  destruct (take_due t rest) as [[z rest']|] eqn:Hz.
  - destruct (IH z rest' eq_refl) as [Hlen Hall].
    destruct (t_due z <? t_due y); inversion H; subst; clear H.
    + simpl. split; [lia | constructor; assumption].
    + rewrite Hagain. simpl. split; [reflexivity | assumption].
  - destruct (t_due y <=? t); [|discriminate].
    inversion H; subst; clear H.
    rewrite Hagain. simpl. split; [reflexivity | assumption].
Qed.

(** Running [setTimeout]s turns pending invocations into made ones. *)
Lemma run_timers_weight (t : Z) :
  forall n h, one_shots h ->
    weight (run_timers n t h) = weight h /\ one_shots (run_timers n t h).
Proof.
  induction n as [|n IH]; intros h Hone; simpl; [auto|].
  destruct (take_due t (timers h)) as [[x ts']|] eqn:Htake; [|auto].
  destruct (take_due_one_shot t (timers h) Hone x ts' Htake) as [Hlen Hall].
  destruct (IH (fire x ts' h)) as [Hw Ho]; [exact Hall|].
  split; [|exact Ho]. rewrite Hw. unfold weight. simpl.
  rewrite length_app, Hlen. simpl. lia.
Qed.

Lemma host_step_weight {S : Type} (call : list value -> S * host -> S * host)
    (e : event) (s : S * host) :
  (forall args, e <> Call args) ->
  one_shots (snd s) ->
  weight (snd (step call e s)) = weight (snd s) /\
  one_shots (snd (step call e s)).
Proof.
  intros Hcall Hone. destruct e as [args|t|t|ts]; cbn [step fst snd].
  - exfalso. apply (Hcall args). reflexivity.
  - destruct (run_timers_weight t (budget t (timers (snd s))) (snd s) Hone)
      as [Hw Ho].
    split; [|exact Ho]. rewrite <- Hw. reflexivity.
  - split; [reflexivity | exact Hone].
  - destruct (render_frame_spec ts (snd s)) as (_ & _ & Ht & Hf & Hl).
    unfold weight, one_shots. rewrite Ht, Hf, Hl, length_app, length_map.
    split; [simpl; lia | exact Hone].
Qed.

Lemma filter_length_le {A : Type} (f : A -> bool) (l : list A) :
  (List.length (filter f l) <= List.length l)%nat.
Proof.
  induction l as [|x l IH]; simpl; [lia|].
  destruct (f x); simpl; lia.
Qed.

Lemma filter_one_shots (f : scheduled -> bool) (ts : list scheduled) :
  Forall (fun x => t_repeat x = None) ts ->
  Forall (fun x => t_repeat x = None) (filter f ts).
Proof.
  induction 1 as [|x l Hx _ IH]; simpl; [constructor|].
  destruct (f x); [constructor|]; assumption.
Qed.

(** If each call adds at most one invocation, made or pending, a run adds
    at most as many as it has calls. *)
Lemma run_weight {S : Type} (call : list value -> S * host -> S * host) :
  (forall args s, one_shots (snd s) ->
     (weight (snd (call args s)) <= 1 + weight (snd s))%nat /\
     one_shots (snd (call args s))) ->
  forall es s, one_shots (snd s) ->
    (weight (snd (run call es s)) <= weight (snd s) + calls es)%nat /\
    one_shots (snd (run call es s)).
Proof.
  intros Hcall es. induction es as [|e es IH]; intros s Hone.
  - simpl. split; [unfold calls; simpl; lia | exact Hone].
  - rewrite run_cons.
    assert (Hstep : (weight (snd (step call e s))
                     <= weight (snd s) + calls [e])%nat /\
                    one_shots (snd (step call e s))).
    { destruct e as [args|t|t|ts].
      - destruct (Hcall args s Hone) as [Hw Ho]. split; [|exact Ho].
        unfold calls. simpl. lia.
      - destruct (host_step_weight call (Advance t) s) as [Hw Ho];
          [discriminate | exact Hone |].
        split; [rewrite Hw; lia | exact Ho].
      - destruct (host_step_weight call (Stall t) s) as [Hw Ho];
          [discriminate | exact Hone |].
        split; [rewrite Hw; lia | exact Ho].
      - destruct (host_step_weight call (Frame ts) s) as [Hw Ho];
          [discriminate | exact Hone |].
        split; [rewrite Hw; lia | exact Ho]. }
    destruct Hstep as [Hw Ho]. destruct (IH _ Ho) as [Hw' Ho'].
    split; [|exact Ho'].
    change (e :: es) with ([e] ++ es). unfold calls in *.
    rewrite filter_app, length_app. lia.
Qed.

(* ================================================================== *)
(** ** Further properties of the wrappers                               *)
(* ================================================================== *)

Ltac weigh :=
  unfold weight, one_shots; cbn [log timers frames invoke clearTimeout
    setTimeout cancelAnimationFrame requestAnimationFrame fst snd];
  rewrite ?length_app; cbn [List.length].

Lemma part000_throttle_weight (timeout : Z) (ele : bool)
    (init args : list value) (s : throttle_state * host) :
  one_shots (snd s) ->
  (weight (snd (Part000.throttle callback timeout ele init args s))
   <= 1 + weight (snd s))%nat /\
  one_shots (snd (Part000.throttle callback timeout ele init args s)).
Proof.
  destruct s as [st h]. cbn [snd]. intros Hone. unfold Part000.throttle.
  destruct (longer_than timeout (now h) (lastCall st)).
  - destruct (callback h args); [weigh; split; [lia | exact Hone]|].
    destruct (timer st) as [id|]; weigh.
    + pose proof (filter_length_le (fun x => negb (t_id x =? id)) (timers h)).
      split; [lia | apply filter_one_shots, Hone].
    + split; [lia | exact Hone].
  - destruct (ele && is_undefined (timer st)); weigh.
    + split; [lia|]. apply Forall_app. split; [exact Hone|].
      constructor; [reflexivity | constructor].
    + split; [lia | exact Hone].
Qed.

Lemma finalEvent_weight (timeout : Z) (args : list value)
    (s : option Z * host) :
  one_shots (snd s) ->
  (weight (snd (Events.finalEvent timeout args s)) <= 1 + weight (snd s))%nat /\
  one_shots (snd (Events.finalEvent timeout args s)).
Proof.
  destruct s as [[id|] h]; cbn [snd]; intros Hone; unfold Events.finalEvent;
    weigh.
  - pose proof (filter_length_le (fun x => negb (t_id x =? id)) (timers h)).
    split; [lia|]. apply Forall_app. split; [apply filter_one_shots, Hone|].
    constructor; [reflexivity | constructor].
  - split; [lia|]. apply Forall_app. split; [exact Hone|].
    constructor; [reflexivity | constructor].
Qed.

Lemma part000_initialEvent_weight (timeout : Z) (init args : list value)
    (s : option Z * host) :
  one_shots (snd s) ->
  (weight (snd (Part000.initialEvent callback timeout init args s))
   <= 1 + weight (snd s))%nat /\
  one_shots (snd (Part000.initialEvent callback timeout init args s)).
Proof.
  destruct s as [prev h]; cbn [snd]; intros Hone. unfold Part000.initialEvent.
  destruct (longer_than timeout (now h) prev);
    [destruct (callback h (args ++ init))|]; weigh;
    (split; [lia | exact Hone]).
Qed.

Lemma animationEvent_weight (body : list value -> Z -> list value)
    (args : list value) (s : option Z * host) :
  let s' := let (frame, h) := s in
            let h1 := match frame with
                      | Some id => cancelAnimationFrame id h
                      | None => h
                      end in
            let (id, h2) := requestAnimationFrame (body args) h1 in
            (Some id, h2) in
  one_shots (snd s) ->
  (weight (snd s') <= 1 + weight (snd s))%nat /\ one_shots (snd s').
Proof.
  destruct s as [[id|] h]; cbn [snd]; intros Hone; weigh.
  - pose proof (filter_length_le (fun x => negb (f_id x =? id)) (frames h)).
    split; [lia | exact Hone].
  - split; [lia | exact Hone].
Qed.

(** X1. [src/events.ts]: no wrapper invokes the callback more often than it
    was called.  Over any sequence of calls, timer runs, stalls and frames
    on a fresh instance of [throttle], [finalEvent], [initialEvent] or
    [animationEvent], the invocations made, together with those still
    pending, number at most the calls. *)
Theorem events_at_most_one_invocation_per_call (timeout : Z)
    (executeLastEvent : bool) (es : list event) (t0 : Z) :
  (weight (snd (run (Events.throttle callback timeout executeLastEvent) es
                  (throttle_init, fresh t0))) <= calls es)%nat /\
  (weight (snd (run (Events.finalEvent timeout) es (None, fresh t0)))
   <= calls es)%nat /\
  (weight (snd (run (Events.initialEvent callback timeout) es (None, fresh t0)))
   <= calls es)%nat /\
  (weight (snd (run Events.animationEvent es (None, fresh t0)))
   <= calls es)%nat.
Proof.
  assert (Hfresh : one_shots (fresh t0)) by constructor.
  repeat split.
  - apply (run_weight (Events.throttle callback timeout executeLastEvent));
      [|exact Hfresh].
    intros args s. rewrite <- part000_throttle_nil.
    apply part000_throttle_weight.
  - apply (run_weight (Events.finalEvent timeout)); [|exact Hfresh].
    intros args s. apply finalEvent_weight.
  - apply (run_weight (Events.initialEvent callback timeout)); [|exact Hfresh].
    intros args s. rewrite <- part000_initialEvent_nil.
    apply part000_initialEvent_weight.
  - apply (run_weight Events.animationEvent); [|exact Hfresh].
    intros args s.
    apply (animationEvent_weight (fun a time => a ++ [Num time]) args s).
Qed.

(** X2. [part_000]: the same bound for the variants with factory-time
    arguments, whatever [initArguments] is. *)
Theorem part000_at_most_one_invocation_per_call (timeout : Z)
    (executeLastEvent : bool) (initArguments : list value)
    (es : list event) (t0 : Z) :
  (weight (snd (run (Part000.throttle callback timeout executeLastEvent initArguments)
                  es (throttle_init, fresh t0))) <= calls es)%nat /\
  (weight (snd (run (Part000.finalEvent timeout) es (None, fresh t0)))
   <= calls es)%nat /\
  (weight (snd (run (Part000.initialEvent callback timeout initArguments) es
                  (None, fresh t0))) <= calls es)%nat /\
  (weight (snd (run (Part000.animationEvent initArguments) es
                  (None, fresh t0))) <= calls es)%nat.
Proof.
  assert (Hfresh : one_shots (fresh t0)) by constructor.
  repeat split.
  - apply (run_weight (Part000.throttle callback timeout executeLastEvent initArguments));
      [|exact Hfresh].
    intros args s. apply part000_throttle_weight.
  - apply (run_weight (Part000.finalEvent timeout)); [|exact Hfresh].
    intros args s. apply finalEvent_weight.
  - apply (run_weight (Part000.initialEvent callback timeout initArguments));
      [|exact Hfresh].
    intros args s. apply part000_initialEvent_weight.
  - apply (run_weight (Part000.animationEvent initArguments)); [|exact Hfresh].
    intros args s.
    apply (animationEvent_weight
             (fun a time => Num time :: a ++ initArguments) args s).
Qed.

Lemma immediate_times_app (l1 l2 : list entry) :
  immediate_times (l1 ++ l2) = immediate_times l1 ++ immediate_times l2.
Proof.
  unfold immediate_times. rewrite filter_app, map_app. reflexivity.
Qed.

Lemma immediate_times_deferred (ds : list entry) :
  deferred_only ds -> immediate_times ds = [].
Proof.
  induction 1 as [|d ds Hd _ IH]; [reflexivity|].
  unfold immediate_times, is_immediate in *. simpl. rewrite Hd. exact IH.
Qed.

(** [last_immediate] is the last of the [immediate_times]. *)
Lemma last_immediate_times (l : list entry) :
  match last_immediate l with
  | None => immediate_times l = []
  | Some t => exists ts, immediate_times l = ts ++ [t]
  end.
Proof.
  induction l as [|e l IH] using rev_ind; [reflexivity|].
  rewrite last_immediate_snoc, immediate_times_app.
  assert (He : immediate_times [e] =
               match e_origin e with
               | Immediate => [e_time e]
               | Deferred => []
               end).
  { unfold immediate_times, is_immediate. simpl.
    destruct (e_origin e); reflexivity. }
  rewrite He. destruct (e_origin e).
  - exists (immediate_times l). reflexivity.
  - rewrite app_nil_r. exact IH.
Qed.

Lemma apart_snoc (timeout : Z) (ts : list Z) (t' t : Z) :
  apart timeout (ts ++ [t']) -> timeout < t - t' ->
  apart timeout ((ts ++ [t']) ++ [t]).
Proof.
  induction ts as [|a ts IH]; intros Hap Hlt.
  - simpl. auto.
  - destruct ts as [|b ts].
    + simpl in *. tauto.
    + change (apart timeout (a :: (b :: ts ++ [t']) ++ [t])).
      change (apart timeout (a :: b :: ts ++ [t'])) in Hap.
      cbn [apart] in Hap. destruct Hap as [Hab Hrest].
      cbn [apart app]. split; [exact Hab|].
      apply (IH Hrest Hlt).
Qed.

(** One more immediate invocation, later than the latest by more than
    [timeout], keeps the immediate invocations apart. *)
Lemma apart_log_snoc (timeout : Z) (l : list entry) (t : Z)
    (args : list value) :
  apart timeout (immediate_times l) ->
  longer_than timeout t (last_immediate l) = true ->
  apart timeout
    (immediate_times
       (l ++ [{| e_origin := Immediate; e_time := t; e_args := args |}])).
Proof.
  intros Hap Hlong. rewrite immediate_times_app.
  change (immediate_times
            [{| e_origin := Immediate; e_time := t; e_args := args |}])
    with [t].
  pose proof (last_immediate_times l) as Hlast.
  destruct (last_immediate l) as [t'|].
  - destruct Hlast as (ts & Hts). rewrite Hts in *.
    apply apart_snoc; [exact Hap|]. simpl in Hlong. apply Z.ltb_lt, Hlong.
  - rewrite Hlast. simpl. auto.
Qed.

Lemma throttle_rate_step (timeout : Z) (ele : bool) (init : list value)
    (e : event) (s : throttle_state * host) :
  throttle_inv s /\ apart timeout (immediate_times (log (snd s))) ->
  throttle_inv (step (Part000.throttle callback timeout ele init) e s) /\
  apart timeout
    (immediate_times (log (snd (step (Part000.throttle callback timeout ele init) e s)))).
Proof.
  intros [Hinv Hap]. split; [apply throttle_inv_step, Hinv|].
  destruct e as [args|t|t|ts].
  - destruct s as [st h]. destruct Hinv as [_ Hlast]. simpl in *.
    unfold Part000.throttle.
    destruct (longer_than timeout (now h) (lastCall st)) eqn:Hlong.
    + rewrite Hlast in Hlong.
      destruct (callback h args); [|destruct (timer st)]; simpl;
        apply apart_log_snoc; assumption.
    + destruct (ele && is_undefined (timer st)); simpl; exact Hap.
  - destruct (host_step_log (Part000.throttle callback timeout ele init) (Advance t) s)
      as (ds & Hl & Hd); [discriminate|].
    rewrite Hl, immediate_times_app, (immediate_times_deferred ds Hd),
      app_nil_r. exact Hap.
  - destruct (host_step_log (Part000.throttle callback timeout ele init) (Stall t) s)
      as (ds & Hl & Hd); [discriminate|].
    rewrite Hl, immediate_times_app, (immediate_times_deferred ds Hd),
      app_nil_r. exact Hap.
  - destruct (host_step_log (Part000.throttle callback timeout ele init) (Frame ts) s)
      as (ds & Hl & Hd); [discriminate|].
    rewrite Hl, immediate_times_app, (immediate_times_deferred ds Hd),
      app_nil_r. exact Hap.
Qed.

(** X3. The rate limit of [throttle], in both source files: over any
    sequence of calls, timer runs, stalls and frames on a fresh instance,
    each immediate invocation comes more than [timeout] after the
    immediate invocation before it. *)
Theorem throttle_rate_limit (timeout : Z) (executeLastEvent : bool)
    (initArguments : list value) (es : list event) (t0 : Z) :
  apart timeout
    (immediate_times
       (log (snd (run (Events.throttle callback timeout executeLastEvent) es
                    (throttle_init, fresh t0))))) /\
  apart timeout
    (immediate_times
       (log (snd (run (Part000.throttle callback timeout executeLastEvent initArguments)
                    es (throttle_init, fresh t0))))).
Proof.
  assert (H : forall init,
    apart timeout
      (immediate_times
         (log (snd (run (Part000.throttle callback timeout executeLastEvent init)
                      es (throttle_init, fresh t0)))))).
  { intros init.
    apply (run_invariant (Part000.throttle callback timeout executeLastEvent init)
             (fun s => throttle_inv s /\
                       apart timeout (immediate_times (log (snd s))))).
    - intros e s. apply throttle_rate_step.
    - split; [apply throttle_inv_init | exact I]. }
  split; [|apply H].
  rewrite <- (run_ext _ _ (part000_throttle_nil timeout executeLastEvent)).
  apply H.
Qed.

(** With nothing pending, the host's own steps change nothing but the
    clock. *)
Lemma host_step_quiet {S : Type} (call : list value -> S * host -> S * host)
    (e : event) (s : S * host) :
  (forall args, e <> Call args) ->
  timers (snd s) = [] -> frames (snd s) = [] ->
  fst (step call e s) = fst s /\
  log (snd (step call e s)) = log (snd s) /\
  timers (snd (step call e s)) = [] /\
  frames (snd (step call e s)) = [] /\
  clock (snd s) <= clock (snd (step call e s)).
Proof.
  intros Hcall Hts Hfs.
  pose proof (host_step_clock call e s Hcall) as Hclock.
  destruct e as [args|t|t|ts]; cbn [step fst snd] in *.
  - exfalso. apply (Hcall args). reflexivity.
  - rewrite (advance_idle t (snd s) Hts) in *. simpl. auto.
  - simpl. auto.
  - destruct (render_frame_spec ts (snd s)) as (_ & _ & Ht & Hf & Hl).
    rewrite Hl, Ht, Hf, Hfs, app_nil_r. auto.
Qed.

Lemma throttle_no_trailing_step (timeout : Z) (init : list value)
    (e : event) (s : throttle_state * host) :
  timer (fst s) = None /\ timers (snd s) = [] /\ frames (snd s) = [] /\
  count_origin Deferred (log (snd s)) = O ->
  let s' := step (Part000.throttle callback timeout false init) e s in
  timer (fst s') = None /\ timers (snd s') = [] /\ frames (snd s') = [] /\
  count_origin Deferred (log (snd s')) = O.
Proof.
  intros (Htimer & Hts & Hfs & Hcount). cbv zeta.
  destruct e as [args|t|t|ts].
  - destruct s as [st h]. simpl in *. unfold Part000.throttle.
    destruct (longer_than timeout (now h) (lastCall st)).
    + rewrite Htimer. destruct (callback h args); simpl;
        rewrite count_origin_app, Hcount; auto.
    + simpl. auto.
  - destruct (host_step_quiet (Part000.throttle callback timeout false init)
                (Advance t) s) as (Hf & Hl & Ht' & Hf' & _);
      try assumption; [discriminate|].
    rewrite Hf, Hl. auto.
  - destruct (host_step_quiet (Part000.throttle callback timeout false init)
                (Stall t) s) as (Hf & Hl & Ht' & Hf' & _);
      try assumption; [discriminate|].
    rewrite Hf, Hl. auto.
  - destruct (host_step_quiet (Part000.throttle callback timeout false init)
                (Frame ts) s) as (Hf & Hl & Ht' & Hf' & _);
      try assumption; [discriminate|].
    rewrite Hf, Hl. auto.
Qed.

(** X4. [throttle] with [executeLastEvent = false], in both source files:
    over any sequence of events on a fresh instance no timer is ever armed,
    the handle stays undefined and the log holds no deferred invocation;
    the calls made during a cooldown are dropped for good. *)
Theorem throttle_without_trailing (timeout : Z) (initArguments : list value)
    (es : list event) (t0 : Z) :
  (let s := run (Events.throttle callback timeout false) es (throttle_init, fresh t0) in
   timer (fst s) = None /\ timers (snd s) = [] /\
   count_origin Deferred (log (snd s)) = O) /\
  (let s := run (Part000.throttle callback timeout false initArguments) es
              (throttle_init, fresh t0) in
   timer (fst s) = None /\ timers (snd s) = [] /\
   count_origin Deferred (log (snd s)) = O).
Proof.
  assert (H : forall init,
    let s := run (Part000.throttle callback timeout false init) es
               (throttle_init, fresh t0) in
    timer (fst s) = None /\ timers (snd s) = [] /\ frames (snd s) = [] /\
    count_origin Deferred (log (snd s)) = O).
  { intros init.
    apply (run_invariant (Part000.throttle callback timeout false init)
             (fun s => timer (fst s) = None /\ timers (snd s) = [] /\
                       frames (snd s) = [] /\
                       count_origin Deferred (log (snd s)) = O)).
    - intros e s. apply throttle_no_trailing_step.
    - repeat split. }
  split.
  - rewrite <- (run_ext _ _ (part000_throttle_nil timeout false)).
    destruct (H []) as (Ha & Hb & _ & Hd). auto.
  - destruct (H initArguments) as (Ha & Hb & _ & Hd). auto.
Qed.

(** X5. [throttle] with [executeLastEvent = true], [src/events.ts]: a burst
    of calls that falls entirely inside a cooldown (less than [timeout]
    after the last immediate invocation, at time [l]) while no trailing
    call is armed invokes nothing at once and exactly one trailing call,
    [timeout] after the first call of the burst and with that call's
    arguments; the later calls are dropped. *)
Theorem throttle_burst_in_cooldown (timeout : Z)
    (st : throttle_state) (h : host) (l : Z)
    (a1 : list value) (rest : list (Z * list value)) (T : Z) :
  lastCall st = Some l -> timer st = None -> timers h = [] ->
  l <= now h ->
  Forall (fun c => fst c < l + timeout) ((now h, a1) :: rest) ->
  now h + timeout <= T ->
  log (snd (run (Events.throttle callback timeout true)
              (Call a1 :: timed rest ++ [Advance T]) (st, h))) =
  log h ++ [{| e_origin := Deferred; e_time := now h + timeout;
               e_args := a1 |}].
Proof.
  intros Hlast Htimer Hts Hl Hall HT.
  rewrite <- (run_ext _ _ (part000_throttle_nil timeout true)).
  rewrite (part000_throttle_cooldown_burst timeout [] st h l a1 rest T)
    by assumption.
  rewrite app_nil_r. reflexivity.
Qed.

(** X6. [throttle] of [part_000] with [executeLastEvent = true] and
    factory-time arguments: a burst of at least two calls that lasts less
    than [timeout] and opens with an immediate invocation whose callback
    returns (or with no handle stored, as on a fresh instance) invokes the
    callback at once with the first call's arguments alone, and once more,
    [timeout] after the second call, with the second call's arguments
    followed by [initArguments]. *)
Theorem part000_throttle_burst_init (timeout : Z) (initArguments : list value)
    (st : throttle_state) (h : host)
    (a1 : list value) (t2 : Z) (a2 : list value)
    (rest : list (Z * list value)) (T : Z) :
  sole_timer (timer st) (timers h) ->
  longer_than timeout (now h) (lastCall st) = true ->
  callback h a1 = false \/ timer st = None ->
  Forall (fun c => now h <= fst c < now h + timeout) ((t2, a2) :: rest) ->
  t2 + timeout <= T ->
  log (snd (run (Part000.throttle callback timeout true initArguments)
              (Call a1 :: timed ((t2, a2) :: rest) ++ [Advance T]) (st, h))) =
  log h ++ [{| e_origin := Immediate; e_time := now h; e_args := a1 |};
            {| e_origin := Deferred; e_time := t2 + timeout;
               e_args := a2 ++ initArguments |}].
Proof.
  intros Hsole Hlong Hok Hall HT.
  apply part000_throttle_burst; assumption.
Qed.

(** Calls of an [initialEvent] wrapper that keep coming, each at most
    [timeout] after the one before, invoke nothing. *)
Lemma part000_initialEvent_suppressed (timeout : Z) (init : list value)
    (rest : list (Z * list value)) :
  forall s t,
    fst s = Some t -> clock (snd s) = t -> timers (snd s) = [] ->
    within timeout t rest ->
    let s' := run (Part000.initialEvent callback timeout init) (timed rest) s in
    log (snd s') = log (snd s) /\ fst s' = Some (clock (snd s')) /\
    timers (snd s') = [].
Proof.
  induction rest as [|[t' a'] rest IH]; intros s t Hf Hc Hts Hw; cbv zeta.
  - simpl. rewrite Hc. auto.
  - destruct Hw as [Ht' Hw].
    change (timed ((t', a') :: rest)) with (Advance t' :: Call a' :: timed rest).
    rewrite !run_cons. cbn [step fst snd].
    rewrite (advance_idle t' (snd s) Hts), Hf.
    unfold Part000.initialEvent.
    assert (Hnow : now (set_clock t' (snd s)) = t')
      by (unfold now; simpl; lia).
    rewrite Hnow.
    assert (Hlong : longer_than timeout t' (Some t) = false)
      by (simpl; apply Z.ltb_ge; lia).
    rewrite Hlong.
    destruct (IH (Some t', set_clock t' (snd s)) t') as (Hl & Hf' & Hts');
      try assumption; try reflexivity.
    simpl in *. auto.
Qed.

(** X7. [initialEvent], leading debounce, in both source files: when a
    call is made with no call before, or more than [timeout] after the
    time [lastCall] holds, and the callback it invokes returns, the calls
    that follow, each at most [timeout] after the one before, invoke
    nothing, however long the burst lasts, and [lastCall] ends as the time
    of the last call.  [part_000] passes the call's arguments followed by
    [initArguments]. *)
Theorem initialEvent_burst (timeout : Z) (initArguments : list value)
    (prev : option Z) (h : host)
    (a1 : list value) (rest : list (Z * list value)) :
  longer_than timeout (now h) prev = true ->
  timers h = [] ->
  within timeout (now h) rest ->
  (callback h a1 = false ->
   let s' := run (Events.initialEvent callback timeout) (Call a1 :: timed rest)
               (prev, h) in
   log (snd s') =
     log h ++ [{| e_origin := Immediate; e_time := now h; e_args := a1 |}] /\
   fst s' = Some (clock (snd s'))) /\
  (callback h (a1 ++ initArguments) = false ->
   let s' := run (Part000.initialEvent callback timeout initArguments)
               (Call a1 :: timed rest) (prev, h) in
   log (snd s') =
     log h ++ [{| e_origin := Immediate; e_time := now h;
                  e_args := a1 ++ initArguments |}] /\
   fst s' = Some (clock (snd s'))).
Proof.
  intros Hlong Hts Hw.
  assert (H : forall init,
    callback h (a1 ++ init) = false ->
    let s' := run (Part000.initialEvent callback timeout init)
                (Call a1 :: timed rest) (prev, h) in
    log (snd s') =
      log h ++ [{| e_origin := Immediate; e_time := now h;
                   e_args := a1 ++ init |}] /\
    fst s' = Some (clock (snd s'))).
  { intros init Hcb. cbv zeta. rewrite run_cons. cbn [step].
    assert (Hcall : Part000.initialEvent callback timeout init a1 (prev, h) =
                    (Some (now h), invoke Immediate (a1 ++ init) h)).
    { unfold Part000.initialEvent. rewrite Hlong, Hcb. reflexivity. }
    rewrite Hcall.
    destruct (part000_initialEvent_suppressed timeout init rest
                (Some (now h), invoke Immediate (a1 ++ init) h) (now h))
      as (Hl & Hf & _); try assumption; try reflexivity.
    rewrite Hl. auto. }
  split; [|apply H].
  intros Hcb. rewrite <- (run_ext _ _ (part000_initialEvent_nil timeout)).
  destruct (H []) as [Hl Hf]; [rewrite app_nil_r; exact Hcb|].
  rewrite app_nil_r in Hl. auto.
Qed.

Lemma initialEvent_rate_step (timeout : Z) (init : list value)
    (e : event) (s : option Z * host) :
  (forall h a, callback h a = false) ->
  apart timeout (immediate_times (log (snd s))) /\
  (forall l, fst s = Some l -> l <= clock (snd s)) /\
  (forall t, last_immediate (log (snd s)) = Some t ->
     exists l, fst s = Some l /\ t <= l) ->
  let s' := step (Part000.initialEvent callback timeout init) e s in
  apart timeout (immediate_times (log (snd s'))) /\
  (forall l, fst s' = Some l -> l <= clock (snd s')) /\
  (forall t, last_immediate (log (snd s')) = Some t ->
     exists l, fst s' = Some l /\ t <= l).
Proof.
  intros Hnt (Hap & Hclock & Hlast). cbv zeta.
  assert (Hhost : (forall args, e <> Call args) ->
    apart timeout
      (immediate_times
         (log (snd (step (Part000.initialEvent callback timeout init) e s)))) /\
    (forall l, fst (step (Part000.initialEvent callback timeout init) e s) = Some l ->
       l <= clock (snd (step (Part000.initialEvent callback timeout init) e s))) /\
    (forall t,
       last_immediate
         (log (snd (step (Part000.initialEvent callback timeout init) e s))) = Some t ->
       exists l, fst (step (Part000.initialEvent callback timeout init) e s) = Some l /\
                 t <= l)).
  { intros Hcall.
    destruct (host_step_log (Part000.initialEvent callback timeout init) e s Hcall)
      as (ds & Hl & Hd).
    pose proof (host_step_clock (Part000.initialEvent callback timeout init) e s Hcall)
      as Hc.
    assert (Hf : fst (step (Part000.initialEvent callback timeout init) e s) = fst s)
      by (destruct e; try reflexivity; exfalso; eapply Hcall; reflexivity).
    rewrite Hl, Hf, immediate_times_app, (immediate_times_deferred ds Hd),
      app_nil_r, last_immediate_deferred by assumption.
    split; [exact Hap|]. split; [|exact Hlast].
    intros l Hl'. specialize (Hclock l Hl'). lia. }
  destruct e as [args|t|t|ts]; try (apply Hhost; discriminate).
  clear Hhost. destruct s as [prev h]. cbn [step]. unfold Part000.initialEvent.
  rewrite (Hnt h (args ++ init)). simpl in *. unfold now in *.
  destruct (longer_than timeout (clock h) prev) eqn:Hlong; simpl.
  - split; [|split].
    + apply apart_log_snoc; [exact Hap|].
      destruct (last_immediate (log h)) as [t|] eqn:Hli; [|reflexivity].
      destruct (Hlast t eq_refl) as (l & Hl & Hle). subst prev. simpl in *.
      apply Z.ltb_lt. apply Z.ltb_lt in Hlong. lia.
    + intros l Hl. inversion Hl. lia.
    + intros t Ht. rewrite last_immediate_snoc in Ht. simpl in Ht.
      inversion Ht. exists (clock h). split; [reflexivity|lia].
  - split; [exact Hap|]. split.
    + intros l Hl. inversion Hl. lia.
    + intros t Ht. destruct (Hlast t Ht) as (l & Hl & Hle).
      exists (clock h). split; [reflexivity|].
      specialize (Hclock l Hl). lia.
Qed.

(** X8. The rate limit of [initialEvent], in both source files, for a
    callback that never throws: over any sequence of events on a fresh
    instance, each invocation comes more than [timeout] after the
    invocation before it.  (A callback that throws leaves [lastCall]
    unset, and the next call invokes it again.) *)
Theorem initialEvent_rate_limit (timeout : Z) (initArguments : list value)
    (es : list event) (t0 : Z) :
  (forall h a, callback h a = false) ->
  apart timeout
    (immediate_times
       (log (snd (run (Events.initialEvent callback timeout) es
                    (None, fresh t0))))) /\
  apart timeout
    (immediate_times
       (log (snd (run (Part000.initialEvent callback timeout initArguments) es
                    (None, fresh t0))))).
Proof.
  intros Hnt.
  assert (H : forall init,
    apart timeout
      (immediate_times
         (log (snd (run (Part000.initialEvent callback timeout init) es
                      (None, fresh t0)))))).
  { intros init.
    apply (run_invariant (Part000.initialEvent callback timeout init)
             (fun s =>
                apart timeout (immediate_times (log (snd s))) /\
                (forall l, fst s = Some l -> l <= clock (snd s)) /\
                (forall t, last_immediate (log (snd s)) = Some t ->
                   exists l, fst s = Some l /\ t <= l))).
    - intros e s. apply initialEvent_rate_step, Hnt.
    - simpl. repeat split; intros; discriminate. }
  split; [|apply H].
  rewrite <- (run_ext _ _ (part000_initialEvent_nil timeout)).
  apply H.
Qed.

(** A frame rendered while no request is pending invokes nothing. *)
Lemma render_frame_idle (ts : Z) (h : host) :
  frames h = [] ->
  log (render_frame ts h) = log h /\ frames (render_frame ts h) = [].
Proof.
  intros Hfs. destruct (render_frame_spec ts h) as (_ & _ & _ & Hf & Hl).
  rewrite Hl, Hfs, app_nil_r. auto.
Qed.

(** X9. [animationEvent] of [src/events.ts]: a burst of calls before the
    next frame results in exactly one invocation, when the frame is
    rendered, with the last call's arguments followed by the frame's time
    stamp; a further frame without a call in between invokes nothing. *)
Theorem animationEvent_coalesces (s : option Z * host) (a : list value)
    (rest : list (list value)) (ts ts' : Z) :
  animationEvent_inv s ->
  log (snd (run Events.animationEvent
              (map Call (a :: rest) ++ [Frame ts; Frame ts']) s)) =
  log (snd s) ++ [{| e_origin := Deferred; e_time := clock (snd s);
                     e_args := last rest a ++ [Num ts] |}].
Proof.
  intros Hinv.
  change [Frame ts; Frame ts'] with ([Frame ts] ++ [Frame ts']).
  rewrite app_assoc, run_app.
  pose proof (animationEvent_burst s a rest ts Hinv) as Hl.
  set (s1 := run Events.animationEvent (map Call (a :: rest) ++ [Frame ts]) s)
    in *.
  assert (Hfs : frames (snd s1) = []).
  { unfold s1. rewrite run_app.
    change (run Events.animationEvent [Frame ts] ?x)
      with (fst x, render_frame ts (snd x)). cbn [snd].
    apply render_frame_spec. }
  change (run Events.animationEvent [Frame ts'] s1)
    with (fst s1, render_frame ts' (snd s1)). cbn [snd].
  destruct (render_frame_idle ts' (snd s1) Hfs) as [Hl' _].
  rewrite Hl'. exact Hl.
Qed.

(** X10. [animationEvent] of [part_000]: the same burst results in exactly
    one invocation too, whose arguments are the frame's time stamp first,
    then the last call's arguments, then [initArguments]; a further frame
    without a call in between invokes nothing. *)
Theorem part000_animationEvent_coalesces (initArguments : list value)
    (s : option Z * host) (a : list value)
    (rest : list (list value)) (ts ts' : Z) :
  animationEvent_inv s ->
  log (snd (run (Part000.animationEvent initArguments)
              (map Call (a :: rest) ++ [Frame ts; Frame ts']) s)) =
  log (snd s) ++ [{| e_origin := Deferred; e_time := clock (snd s);
                     e_args := Num ts :: last rest a ++ initArguments |}].
Proof.
  intros Hinv.
  change [Frame ts; Frame ts'] with ([Frame ts] ++ [Frame ts']).
  rewrite app_assoc, run_app.
  pose proof (part000_animationEvent_burst initArguments s a rest ts Hinv)
    as Hl.
  set (s1 := run (Part000.animationEvent initArguments)
               (map Call (a :: rest) ++ [Frame ts]) s) in *.
  assert (Hfs : frames (snd s1) = []).
  { unfold s1. rewrite run_app.
    change (run (Part000.animationEvent initArguments) [Frame ts] ?x)
      with (fst x, render_frame ts (snd x)). cbn [snd].
    apply render_frame_spec. }
  change (run (Part000.animationEvent initArguments) [Frame ts'] s1)
    with (fst s1, render_frame ts' (snd s1)). cbn [snd].
  destruct (render_frame_idle ts' (snd s1) Hfs) as [Hl' _].
  rewrite Hl'. exact Hl.
Qed.

(** X11. [startInterval], the same in both source files, with a period
    [p] of at least one clock unit, on a host with nothing else pending.
    The handler runs once at once, with no arguments.  If that call
    returns, then by a time [t] that lies [k] whole periods later the
    handler has run [k] more times, one period apart, each time with
    [args]; the value returned is the interval's handle, and after
    [clearInterval] on it the handler runs no more.  If that call throws,
    no interval is set, nothing is returned, and the handler does not run
    again. *)
Theorem startInterval_periodic (p : Z) (args : list value)
    (h : host) (k : nat) (t t' : Z) :
  timers h = [] ->
  0 < p ->
  now h + Z.of_nat k * p <= t < now h + (Z.of_nat k + 1) * p ->
  let r := Events.startInterval callback (Some p) args h in
  Part000.startInterval callback (Some p) args h = r /\
  if callback h [] then
    fst r = None /\
    timers (snd r) = [] /\
    log (advance t (snd r)) =
      log h ++ [{| e_origin := Immediate; e_time := now h; e_args := [] |}]
  else
    fst r = Some (next_id h) /\
    map t_id (timers (snd r)) = [next_id h] /\
    log (advance t (snd r)) =
      log h ++ {| e_origin := Immediate; e_time := now h; e_args := [] |}
            :: map (fun i => {| e_origin := Deferred;
                                e_time := now h + (Z.of_nat i + 1) * p;
                                e_args := args |}) (seq 0 k) /\
    log (advance t' (clearInterval (next_id h) (advance t (snd r)))) =
      log (advance t (snd r)).
Proof.
  intros Hts Hp Ht r. split; [reflexivity|].
  destruct (callback h []) eqn:Hcb.
  - unfold r. rewrite (startInterval_throws (Some p) args h Hcb).
    cbn [fst snd]. split; [reflexivity|]. split; [exact Hts|].
    rewrite advance_idle by exact Hts. reflexivity.
  - assert (Hper : period (Events.delay (Some p)) = p)
      by (unfold period; simpl; lia).
    destruct (startInterval_repeats (Some p) args h k t t' Hts Hcb)
      as [Hl Hc].
    { rewrite Hper. exact Ht. }
    rewrite Hper in Hl.
    destruct (startInterval_spec (Some p) args h Hcb) as (Hf & _ & Htm & _).
    split; [exact Hf|].
    split; [fold r in Htm; rewrite Htm, Hts; reflexivity|].
    split; assumption.
Qed.

(** X12. Called without factory-time arguments, the wrappers of [part_000]
    behave as those of [src/events.ts]: over every sequence of events and
    from every state, [throttle], [finalEvent] and [initialEvent] reach
    the same state, host and log, and [startInterval] is the same
    function. *)
Theorem part000_without_initArguments (timeout : Z) (executeLastEvent : bool)
    (es : list event) :
  (forall s, run (Part000.throttle callback timeout executeLastEvent []) es s =
             run (Events.throttle callback timeout executeLastEvent) es s) /\
  (forall s, run (Part000.finalEvent timeout) es s =
             run (Events.finalEvent timeout) es s) /\
  (forall s, run (Part000.initialEvent callback timeout []) es s =
             run (Events.initialEvent callback timeout) es s) /\
  (forall t args h, Part000.startInterval callback t args h =
                    Events.startInterval callback t args h).
Proof.
  repeat split.
  - apply run_ext, part000_throttle_nil.
  - apply run_ext, part000_initialEvent_nil.
Qed.

(** While only the host acts, a lone pending [setTimeout] either still
    waits or has run, no earlier than it was due. *)
Lemma host_steps_single {S : Type} (call : list value -> S * host -> S * host)
    (x : scheduled) (L : list entry) (hs : list event) :
  t_repeat x = None ->
  Forall (fun e => is_call e = false) hs ->
  forall s,
    frames (snd s) = [] ->
    (timers (snd s) = [x] /\ log (snd s) = L \/
     timers (snd s) = [] /\
     exists t, t_due x <= t /\
       log (snd s) = L ++ [{| e_origin := Deferred; e_time := t;
                              e_args := t_args x |}]) ->
    let s' := run call hs s in
    fst s' = fst s /\ frames (snd s') = [] /\
    (timers (snd s') = [x] /\ log (snd s') = L \/
     timers (snd s') = [] /\
     exists t, t_due x <= t /\
       log (snd s') = L ++ [{| e_origin := Deferred; e_time := t;
                               e_args := t_args x |}]).
Proof.
  intros Hrep Hhs. induction Hhs as [|e hs He _ IH]; intros s Hfs Hcase;
    cbv zeta; [simpl; auto|].
  rewrite run_cons.
  assert (Hcall : forall args, e <> Call args)
    by (intros args Heq; subst e; discriminate He).
  assert (Hf : fst (step call e s) = fst s)
    by (destruct e; try reflexivity; exfalso; eapply Hcall; reflexivity).
  assert (Hstep : frames (snd (step call e s)) = [] /\
    (timers (snd (step call e s)) = [x] /\ log (snd (step call e s)) = L \/
     timers (snd (step call e s)) = [] /\
     exists t, t_due x <= t /\
       log (snd (step call e s)) =
       L ++ [{| e_origin := Deferred; e_time := t; e_args := t_args x |}])).
  { destruct Hcase as [[Hts Hl]|[Hts Hl]].
    - destruct e as [args|t|t|ts]; cbn [step fst snd].
      + exfalso. apply (Hcall args). reflexivity.
      + rewrite advance_frames. split; [exact Hfs|].
        rewrite (advance_single t (snd s) x Hts Hrep).
        destruct (t_due x <=? t); simpl.
        * right. split; [reflexivity|].
          exists (Z.max (clock (snd s)) (t_due x)).
          split; [lia | rewrite Hl; reflexivity].
        * left. auto.
      + simpl. auto.
      + destruct (render_frame_idle ts (snd s) Hfs) as [Hl' Hf'].
        destruct (render_frame_spec ts (snd s)) as (_ & _ & Ht & _).
        rewrite Hl', Hf', Ht. auto.
    - destruct (host_step_quiet call e s Hcall Hts Hfs)
        as (_ & Hl' & Ht' & Hf' & _).
      rewrite Hl', Ht', Hf'. auto. }
  destruct Hstep as [Hfs' Hcase'].
  destruct (IH (step call e s) Hfs' Hcase') as (Ha & Hb & Hc).
  rewrite Ha, Hf. auto.
Qed.

(** X13. [finalEvent], the last call wins: after a call, and whatever the
    host does until the next call (timers run, stalls, frames), the only
    invocation that can have been made is that of this call, with its
    arguments, and no earlier than [timeout] after it; what an earlier
    call had armed is never invoked. *)
Theorem finalEvent_last_call_wins (timeout : Z) (args : list value)
    (s : option Z * host) (hs : list event) :
  finalEvent_inv s ->
  frames (snd s) = [] ->
  Forall (fun e => is_call e = false) hs ->
  let s' := run (Events.finalEvent timeout) hs
              (Events.finalEvent timeout args s) in
  log (snd s') = log (snd s) \/
  exists t, now (snd s) + timeout <= t /\
    log (snd s') = log (snd s) ++ [{| e_origin := Deferred; e_time := t;
                                      e_args := args |}].
Proof.
  intros Hinv Hfs Hhs. cbv zeta.
  destruct (finalEvent_call timeout args s Hinv) as (_ & Hts & Hl & _ & Hf).
  set (x := {| t_id := next_id (snd s);
               t_due := clock (snd s) + Z.max 0 timeout;
               t_repeat := None; t_args := args |}) in *.
  destruct (host_steps_single (Events.finalEvent timeout) x (log (snd s)) hs
              eq_refl Hhs (Events.finalEvent timeout args s))
    as (_ & _ & [[_ Hl']|[_ (t & Ht & Hl')]]).
  - rewrite Hf. exact Hfs.
  - left. auto.
  - left. exact Hl'.
  - right. exists t. unfold now. simpl in Ht. split; [lia | exact Hl'].
Qed.

Lemma count_origin_snoc_immediate (l : list entry) (t : Z) (args : list value) :
  count_origin Deferred
    (l ++ [{| e_origin := Immediate; e_time := t; e_args := args |}])
  = count_origin Deferred l.
Proof. rewrite count_origin_app. unfold count_origin at 2. simpl. lia. Qed.

Lemma throttle_negative_run (timeout : Z) (ele : bool) (init : list value)
    (es : list event) :
  timeout < 0 ->
  forall s,
    (forall l, lastCall (fst s) = Some l -> l <= clock (snd s)) ->
    timer (fst s) = None -> timers (snd s) = [] -> frames (snd s) = [] ->
    let s' := run (Part000.throttle callback timeout ele init) es s in
    List.length (log (snd s')) = (List.length (log (snd s)) + calls es)%nat /\
    count_origin Deferred (log (snd s')) = count_origin Deferred (log (snd s)).
Proof.
  intros Hneg. induction es as [|e es IH]; intros s Hclock Htimer Hts Hfs;
    cbv zeta.
  - unfold calls. simpl. split; [lia | reflexivity].
  - rewrite run_cons.
    assert (Hcalls : calls (e :: es) = (calls [e] + calls es)%nat).
    { change (e :: es) with ([e] ++ es). unfold calls.
      rewrite filter_app, length_app. reflexivity. }
    destruct e as [args|t|t|ts].
    + destruct s as [st h]. cbn [fst snd step] in *.
      assert (Hlong : longer_than timeout (now h) (lastCall st) = true).
      { destruct (lastCall st) as [l|] eqn:Hl; [|reflexivity].
        simpl. apply Z.ltb_lt. specialize (Hclock l eq_refl). unfold now. lia. }
      assert (Hcall : Part000.throttle callback timeout ele init args (st, h) =
                      ({| lastCall := Some (now h); timer := None |},
                       invoke Immediate args h)).
      { unfold Part000.throttle. rewrite Hlong, Htimer.
        destruct (callback h args); reflexivity. }
      rewrite Hcall.
      destruct (IH ({| lastCall := Some (now h); timer := None |},
                    invoke Immediate args h)) as [Hlen Hdef];
        try assumption; try reflexivity.
      { simpl. intros l Hl. inversion Hl. unfold now. lia. }
      cbv zeta in Hlen, Hdef. rewrite Hlen, Hdef, Hcalls. simpl.
      rewrite length_app, count_origin_snoc_immediate. unfold calls. simpl.
      split; [lia | reflexivity].
    + destruct (host_step_quiet (Part000.throttle callback timeout ele init)
                  (Advance t) s) as (Hf & Hl & Ht' & Hf' & Hc);
        try assumption; [discriminate|].
      destruct (IH (step (Part000.throttle callback timeout ele init) (Advance t) s))
        as [Hlen Hdef]; try assumption.
      { rewrite Hf. intros l Hl'. specialize (Hclock l Hl'). lia. }
      cbv zeta in Hlen, Hdef. rewrite Hlen, Hdef, Hl, Hcalls.
      unfold calls. simpl. auto.
    + destruct (host_step_quiet (Part000.throttle callback timeout ele init)
                  (Stall t) s) as (Hf & Hl & Ht' & Hf' & Hc);
        try assumption; [discriminate|].
      destruct (IH (step (Part000.throttle callback timeout ele init) (Stall t) s))
        as [Hlen Hdef]; try assumption.
      { rewrite Hf. intros l Hl'. specialize (Hclock l Hl'). lia. }
      cbv zeta in Hlen, Hdef. rewrite Hlen, Hdef, Hl, Hcalls.
      unfold calls. simpl. auto.
    + destruct (host_step_quiet (Part000.throttle callback timeout ele init)
                  (Frame ts) s) as (Hf & Hl & Ht' & Hf' & Hc);
        try assumption; [discriminate|].
      destruct (IH (step (Part000.throttle callback timeout ele init) (Frame ts) s))
        as [Hlen Hdef]; try assumption.
      { rewrite Hf. intros l Hl'. specialize (Hclock l Hl'). lia. }
      cbv zeta in Hlen, Hdef. rewrite Hlen, Hdef, Hl, Hcalls.
      unfold calls. simpl. auto.
Qed.

(** X14. [throttle] with a negative [timeout], in both source files, does
    not throttle: over any sequence of events on a fresh instance every
    call is invoked at once (the log has one entry per call) and nothing
    is ever deferred, whatever [executeLastEvent] is. *)
Theorem throttle_negative_timeout (timeout : Z) (executeLastEvent : bool)
    (initArguments : list value) (es : list event) (t0 : Z) :
  timeout < 0 ->
  (let s := run (Events.throttle callback timeout executeLastEvent) es
              (throttle_init, fresh t0) in
   List.length (log (snd s)) = calls es /\
   count_origin Deferred (log (snd s)) = O) /\
  (let s := run (Part000.throttle callback timeout executeLastEvent initArguments) es
              (throttle_init, fresh t0) in
   List.length (log (snd s)) = calls es /\
   count_origin Deferred (log (snd s)) = O).
Proof.
  intros Hneg.
  assert (H : forall init,
    let s := run (Part000.throttle callback timeout executeLastEvent init) es
               (throttle_init, fresh t0) in
    List.length (log (snd s)) = calls es /\
    count_origin Deferred (log (snd s)) = O).
  { intros init.
    apply (throttle_negative_run timeout executeLastEvent init es Hneg
             (throttle_init, fresh t0)); try reflexivity.
    simpl. intros l Hl. discriminate Hl. }
  split; [|apply H].
  rewrite <- (run_ext _ _ (part000_throttle_nil timeout executeLastEvent)).
  apply H.
Qed.

(** A wrapper whose calls leave the log alone never adds an immediate
    invocation. *)
Lemma run_no_immediate {S : Type} (call : list value -> S * host -> S * host) :
  (forall args s, log (snd (call args s)) = log (snd s)) ->
  forall es s,
    count_origin Immediate (log (snd (run call es s)))
    = count_origin Immediate (log (snd s)).
Proof.
  intros Hcall es. induction es as [|e es IH]; intros s; [reflexivity|].
  rewrite run_cons, IH.
  assert (Hhost : (forall args, e <> Call args) ->
    count_origin Immediate (log (snd (step call e s)))
    = count_origin Immediate (log (snd s))).
  { intros Hne. destruct (host_step_log call e s Hne) as (ds & Hl & Hd).
    rewrite Hl, count_origin_app, (count_immediate_deferred ds Hd). lia. }
  destruct e as [args|t|t|ts]; try (apply Hhost; discriminate).
  simpl. rewrite Hcall. reflexivity.
Qed.

(** X15. [animationEvent], in both source files, never invokes the
    callback from inside a call: over any sequence of events, from any
    state, the log gains no immediate invocation; every invocation is
    made by the host when it renders a frame. *)
Theorem animationEvent_never_immediate (initArguments : list value)
    (es : list event) (s : option Z * host) :
  count_origin Immediate (log (snd (run Events.animationEvent es s)))
  = count_origin Immediate (log (snd s)) /\
  count_origin Immediate
    (log (snd (run (Part000.animationEvent initArguments) es s)))
  = count_origin Immediate (log (snd s)).
Proof.
  split; apply run_no_immediate; intros args [[id|] h]; reflexivity.
Qed.

Lemma initialEvent_never_defers_step (timeout : Z) (init : list value)
    (e : event) (s : option Z * host) :
  timers (snd s) = [] /\ frames (snd s) = [] /\
  count_origin Deferred (log (snd s)) = O ->
  let s' := step (Part000.initialEvent callback timeout init) e s in
  timers (snd s') = [] /\ frames (snd s') = [] /\
  count_origin Deferred (log (snd s')) = O.
Proof.
  intros (Hts & Hfs & Hcount). cbv zeta.
  assert (Hhost : (forall args, e <> Call args) ->
    timers (snd (step (Part000.initialEvent callback timeout init) e s)) = [] /\
    frames (snd (step (Part000.initialEvent callback timeout init) e s)) = [] /\
    count_origin Deferred
      (log (snd (step (Part000.initialEvent callback timeout init) e s))) = O).
  { intros Hne.
    destruct (host_step_quiet (Part000.initialEvent callback timeout init) e s Hne
                Hts Hfs) as (_ & Hl & Ht' & Hf' & _).
    rewrite Hl. auto. }
  destruct e as [args|t|t|ts]; try (apply Hhost; discriminate).
  destruct s as [prev h]. simpl in *.
  destruct (longer_than timeout (now h) prev); simpl; [|auto].
  destruct (callback h (args ++ init)); simpl;
    rewrite count_origin_snoc_immediate; auto.
Qed.

(** X16. [initialEvent], in both source files, never defers: over any
    sequence of events on a fresh instance it registers no timer and no
    frame request, and the log holds no deferred invocation. *)
Theorem initialEvent_never_defers (timeout : Z) (initArguments : list value)
    (es : list event) (t0 : Z) :
  (let s := run (Events.initialEvent callback timeout) es (None, fresh t0) in
   timers (snd s) = [] /\ frames (snd s) = [] /\
   count_origin Deferred (log (snd s)) = O) /\
  (let s := run (Part000.initialEvent callback timeout initArguments) es
              (None, fresh t0) in
   timers (snd s) = [] /\ frames (snd s) = [] /\
   count_origin Deferred (log (snd s)) = O).
Proof.
  assert (H : forall init,
    let s := run (Part000.initialEvent callback timeout init) es (None, fresh t0) in
    timers (snd s) = [] /\ frames (snd s) = [] /\
    count_origin Deferred (log (snd s)) = O).
  { intros init.
    apply (run_invariant (Part000.initialEvent callback timeout init)
             (fun s => timers (snd s) = [] /\ frames (snd s) = [] /\
                       count_origin Deferred (log (snd s)) = O)).
    - intros e s. apply initialEvent_never_defers_step.
    - repeat split. }
  split; [|apply H].
  rewrite <- (run_ext _ _ (part000_initialEvent_nil timeout)).
  apply H.
Qed.

Lemma part000_animationEvent_inv_run (init : list value) (es : list event)
    (s : option Z * host) :
  animationEvent_inv s ->
  animationEvent_inv (run (Part000.animationEvent init) es s).
Proof.
  apply run_invariant. intros e s'. apply part000_animationEvent_inv_step.
Qed.

(** X17. The wrappers of [part_000] keep the invariants of those of
    [src/events.ts], whatever [initArguments] is: over any sequence of
    events on a fresh instance, [throttle] and [finalEvent] have at most
    one timer pending and [animationEvent] at most one frame request, and
    [throttle]'s [lastCall] is the time of the latest immediate
    invocation. *)
Theorem part000_invariants (timeout : Z) (executeLastEvent : bool)
    (initArguments : list value) (es : list event) (t0 : Z) :
  (let s := run (Part000.throttle callback timeout executeLastEvent initArguments) es
              (throttle_init, fresh t0) in
   (List.length (timers (snd s)) <= 1)%nat /\
   lastCall (fst s) = last_immediate (log (snd s))) /\
  (List.length
     (timers (snd (run (Part000.finalEvent timeout) es (None, fresh t0))))
   <= 1)%nat /\
  (List.length
     (frames (snd (run (Part000.animationEvent initArguments) es
                     (None, fresh t0))))
   <= 1)%nat.
Proof.
  split; [|split].
  - destruct (throttle_inv_run timeout executeLastEvent initArguments es
                (throttle_init, fresh t0) (throttle_inv_init t0))
      as [Hsole Hlast].
    cbv zeta. split; [eapply sole_timer_length; exact Hsole | exact Hlast].
  - apply (sole_timer_length
             (fst (run (Part000.finalEvent timeout) es (None, fresh t0)))).
    apply (run_invariant (Part000.finalEvent timeout) finalEvent_inv).
    + intros e s. apply finalEvent_inv_step.
    + left. reflexivity.
  - apply (sole_frame_length
             (fst (run (Part000.animationEvent initArguments) es
                     (None, fresh t0)))).
    apply part000_animationEvent_inv_run. left. reflexivity.
Qed.

Lemma take_due_args (A : list (list value)) (t : Z) (ts : list scheduled) :
  Forall (fun x => In (t_args x) A) ts ->
  forall x ts', take_due t ts = Some (x, ts') ->
    In (t_args x) A /\ Forall (fun x => In (t_args x) A) ts'.
Proof.
  induction 1 as [|y rest Hy Hrest IH]; simpl; intros x ts' H; [discriminate|].
  assert (Hagain : Forall (fun x => In (t_args x) A) (again y ++ rest)).
  { apply Forall_app. split; [|exact Hrest].
    unfold again. destruct (t_repeat y); constructor; [exact Hy|constructor]. }
  destruct (take_due t rest) as [[z rest']|] eqn:Hz.
  - destruct (IH z rest' eq_refl) as [Hzin Hall].
    destruct (t_due z <? t_due y); inversion H; subst; clear H.
    + split; [exact Hzin | constructor; assumption].
    + split; assumption.
  - destruct (t_due y <=? t); [|discriminate].
    inversion H; subst; clear H. split; assumption.
Qed.

Lemma run_timers_args (A : list (list value)) (t : Z) :
  forall n h, args_from A h -> args_from A (run_timers n t h).
Proof.
  induction n as [|n IH]; intros h Hh; simpl; [exact Hh|].
  destruct (take_due t (timers h)) as [[x ts']|] eqn:Htake; [|exact Hh].
  destruct Hh as (Hlog & Hts & Hfs).
  destruct (take_due_args A t (timers h) Hts x ts' Htake) as [Hx Hts'].
  apply IH. unfold args_from. simpl. split; [|split; assumption].
  apply Forall_app. split; [exact Hlog|]. constructor; [exact Hx|constructor].
Qed.

Lemma host_step_args {S : Type} (call : list value -> S * host -> S * host)
    (A : list (list value)) (e : event) (s : S * host) :
  (forall args, e <> Call args) ->
  args_from A (snd s) -> args_from A (snd (step call e s)).
Proof.
  intros Hcall Hs. destruct e as [args|t|t|ts]; cbn [step fst snd].
  - exfalso. apply (Hcall args). reflexivity.
  - apply (run_timers_args A t (budget t (timers (snd s))) (snd s)) in Hs.
    exact Hs.
  - exact Hs.
  - destruct Hs as (Hlog & Hts & Hfs).
    destruct (render_frame_idle ts (snd s) Hfs) as [Hl Hf].
    destruct (render_frame_spec ts (snd s)) as (_ & _ & Ht & _).
    unfold args_from. rewrite Hl, Ht, Hf. auto.
Qed.

Lemma args_from_more (A B : list (list value)) (h : host) :
  args_from A h -> args_from (A ++ B) h.
Proof.
  intros (Hlog & Hts & Hfs). split; [|split; [|exact Hfs]].
  - eapply Forall_impl; [|exact Hlog]. intros e He. apply in_or_app. auto.
  - eapply Forall_impl; [|exact Hts]. intros x Hx. apply in_or_app. auto.
Qed.

(** If each call only adds invocations and timers that carry its own
    arguments, every invocation of a run carries the arguments of one of
    its calls. *)
Lemma run_args {S : Type} (call : list value -> S * host -> S * host) :
  (forall A args s, args_from A (snd s) ->
     args_from (A ++ [args]) (snd (call args s))) ->
  forall es A s, args_from A (snd s) ->
    args_from (A ++ passed es) (snd (run call es s)).
Proof.
  intros Hcall es. induction es as [|e es IH]; intros A s Hs.
  - simpl. rewrite app_nil_r. exact Hs.
  - rewrite run_cons.
    destruct e as [args|t|t|ts]; cbn [passed].
    + change (args :: passed es) with ([args] ++ passed es).
      rewrite app_assoc. apply IH. apply Hcall, Hs.
    + apply IH, host_step_args; [discriminate | exact Hs].
    + apply IH, host_step_args; [discriminate | exact Hs].
    + apply IH, host_step_args; [discriminate | exact Hs].
Qed.

Lemma args_from_invoke (A : list (list value)) (args : list value) (h : host) :
  args_from A h -> args_from (A ++ [args]) (invoke Immediate args h).
Proof.
  intros Hh. destruct (args_from_more A [args] h Hh) as (Hlog & Hts & Hfs).
  unfold args_from. simpl. split; [|split; assumption].
  apply Forall_app. split; [exact Hlog|].
  constructor; [|constructor]. simpl. apply in_or_app. right. left. reflexivity.
Qed.

Lemma args_from_setTimeout (A : list (list value)) (args : list value)
    (timeout : Z) (h : host) :
  args_from A h -> args_from (A ++ [args]) (snd (setTimeout args timeout h)).
Proof.
  intros Hh. destruct (args_from_more A [args] h Hh) as (Hlog & Hts & Hfs).
  unfold args_from. simpl. split; [exact Hlog|]. split; [|exact Hfs].
  apply Forall_app. split; [exact Hts|].
  constructor; [|constructor]. simpl. apply in_or_app. right. left. reflexivity.
Qed.

Lemma args_from_clearTimeout (A : list (list value)) (id : Z) (h : host) :
  args_from A h -> args_from A (clearTimeout id h).
Proof.
  intros (Hlog & Hts & Hfs). unfold args_from. simpl.
  split; [exact Hlog|]. split; [|exact Hfs].
  induction Hts as [|x l Hx _ IH]; simpl; [constructor|].
  destruct (negb (t_id x =? id)); [constructor|]; assumption.
Qed.

(** X18. [src/events.ts]: [throttle], [finalEvent] and [initialEvent]
    invoke the callback only with argument lists they were called with.
    Over any sequence of events on a fresh instance, every invocation in
    the log, immediate or deferred, carries the arguments of one of the
    calls of the run. *)
Theorem events_arguments_come_from_calls (timeout : Z)
    (executeLastEvent : bool) (es : list event) (t0 : Z) :
  Forall (fun e => In (e_args e) (passed es))
    (log (snd (run (Events.throttle callback timeout executeLastEvent) es
                 (throttle_init, fresh t0)))) /\
  Forall (fun e => In (e_args e) (passed es))
    (log (snd (run (Events.finalEvent timeout) es (None, fresh t0)))) /\
  Forall (fun e => In (e_args e) (passed es))
    (log (snd (run (Events.initialEvent callback timeout) es (None, fresh t0)))).
Proof.
  assert (Hfresh : args_from [] (fresh t0)) by (repeat split; constructor).
  split; [|split].
  - assert (Hc : forall A args (s : throttle_state * host),
               args_from A (snd s) ->
               args_from (A ++ [args])
                 (snd (Events.throttle callback timeout executeLastEvent args s))).
    { intros A args [st h] Hh. cbn [snd] in *. unfold Events.throttle.
      destruct (longer_than timeout (now h) (lastCall st)).
      - destruct (callback h args); [apply args_from_invoke, Hh|].
        destruct (timer st) as [id|]; cbn [snd].
        + apply args_from_clearTimeout, args_from_invoke, Hh.
        + apply args_from_invoke, Hh.
      - destruct (executeLastEvent && is_undefined (timer st)).
        + apply (args_from_setTimeout A args timeout h Hh).
        + apply args_from_more, Hh. }
    destruct (run_args _ Hc es [] (throttle_init, fresh t0) Hfresh) as [H _].
    exact H.
  - assert (Hc : forall A args (s : option Z * host),
               args_from A (snd s) ->
               args_from (A ++ [args])
                 (snd (Events.finalEvent timeout args s))).
    { intros A args [[id|] h] Hh; cbn [snd] in *; unfold Events.finalEvent.
      - apply (args_from_setTimeout A args timeout (clearTimeout id h)).
        apply args_from_clearTimeout, Hh.
      - apply (args_from_setTimeout A args timeout h Hh). }
    destruct (run_args _ Hc es [] (None, fresh t0) Hfresh) as [H _].
    exact H.
  - assert (Hc : forall A args (s : option Z * host),
               args_from A (snd s) ->
               args_from (A ++ [args])
                 (snd (Events.initialEvent callback timeout args s))).
    { intros A args [prev h] Hh; cbn [snd] in *. unfold Events.initialEvent.
      destruct (longer_than timeout (now h) prev).
      - destruct (callback h args); apply args_from_invoke, Hh.
      - apply args_from_more, Hh. }
    destruct (run_args _ Hc es [] (None, fresh t0) Hfresh) as [H _].
    exact H.
Qed.

End Callback.

(* ================================================================== *)
(** ** Evaluations, counterexamples and instances                       *)
(* ================================================================== *)

(** C1. [startInterval(handler, 1000, "x")] on a fresh host: the call made
    at once is [handler()], with an empty argument list, not
    [handler("x")]; the repetitions at 1000 and 2000 do pass ["x"], the
    handle returned is that of the interval, and clearing it stops the
    repetitions. *)
Theorem startInterval_first_call_without_args :
  let args := [Str "x"] in
  let r := Events.startInterval never_throws (Some 1000) args (fresh 0) in
  log (snd r) = [{| e_origin := Immediate; e_time := 0; e_args := [] |}] /\
  log (snd r) <> [{| e_origin := Immediate; e_time := 0; e_args := args |}] /\
  map (fun x => Some (t_id x)) (timers (snd r)) = [fst r] /\
  log (advance 2000 (snd r)) =
    [{| e_origin := Immediate; e_time := 0; e_args := [] |};
     {| e_origin := Deferred; e_time := 1000; e_args := args |};
     {| e_origin := Deferred; e_time := 2000; e_args := args |}] /\
  match fst r with
  | Some id =>
      log (advance 5000 (clearInterval id (advance 2000 (snd r)))) =
      log (advance 2000 (snd r))
  | None => False
  end /\
  Part000.startInterval never_throws (Some 1000) args (fresh 0) = r.
Proof.
  vm_compute. repeat split. intros H. discriminate H.
Qed.

(** C2. [part_000]: two calls of an [animationEvent] wrapper before the
    next frame, then the frame with time stamp 16, result in exactly one
    invocation, with the second call's arguments, but the time stamp is
    the first argument, not the last.  The wrapper of [src/events.ts]
    passes it last. *)
Theorem part000_animationEvent_timestamp_first :
  let burst := [Call [Str "a"]; Call [Str "b"]; Frame 16] in
  let s := run (Part000.animationEvent []) burst (None, fresh 0) in
  log (snd s) =
    [{| e_origin := Deferred; e_time := 0; e_args := [Num 16; Str "b"] |}] /\
  log (snd s) <>
    [{| e_origin := Deferred; e_time := 0; e_args := [Str "b"; Num 16] |}] /\
  log (snd (run Events.animationEvent burst (None, fresh 0))) =
    [{| e_origin := Deferred; e_time := 0; e_args := [Str "b"; Num 16] |}].
Proof.
  vm_compute. repeat split. intros H. discriminate H.
Qed.

(** C3, as stated, fails.  A single call on a fresh instance is invoked at
    once and nothing trails it; and after a trailing call has run, two
    calls still inside the cooldown are both dropped. *)
Lemma throttle_burst_without_trailing :
  let a := [Str "a"] in
  let l1 := log (snd (run (Events.throttle never_throws 500 true)
                        (timed [(0, a)] ++ [Advance 10000])
                        (throttle_init, fresh 0))) in
  let s := run (Events.throttle never_throws 500 true)
             (timed [(0, a); (0, a)] ++ [Advance 500])
             (throttle_init, fresh 0) in
  let l2 := log (snd (run (Events.throttle never_throws 500 true)
                        (timed [(500, a); (500, a)] ++ [Advance 10000]) s)) in
  ~ ((count_origin Immediate l1 <= 1)%nat /\ count_origin Deferred l1 = 1%nat)
  /\ count_origin Deferred l2 = count_origin Deferred (log (snd s)).
Proof.
  vm_compute. split; [|reflexivity]. intros [_ H]. discriminate H.
Qed.

Lemma throttle_burst_witness :
  let a := [Str "a"] in
  let b := [Str "b"] in
  let c := [Str "c"] in
  log (snd (run (Events.throttle always_throws 500 true)
              (Call a :: timed [(100, b); (200, c)] ++ [Advance 1000])
              (throttle_init, fresh 0))) =
  [{| e_origin := Immediate; e_time := 0; e_args := a |};
   {| e_origin := Deferred; e_time := 600; e_args := b |}] /\
  log (snd (run (Events.throttle never_throws 500 true)
              (Call a :: timed [] ++ [Advance 1000])
              (throttle_init, fresh 0))) =
  [{| e_origin := Immediate; e_time := 0; e_args := a |}] /\
  log (snd (run (Events.throttle never_throws 500 true)
              (Call b :: timed [(200, c)] ++ [Advance 1000])
              ({| lastCall := Some 0; timer := None |},
               {| clock := 100; next_id := 1; timers := []; frames := [];
                  log := [] |}))) =
  [{| e_origin := Deferred; e_time := 600; e_args := b |}].
Proof.
  intros a b c. split; [|split].
  - apply (proj1 (throttle_burst always_throws 500 throttle_init (fresh 0) a
                    [(100, b); (200, c)] 1000
                    (or_introl eq_refl)
                    ltac:(repeat constructor; simpl; lia))).
    + reflexivity.
    + right. reflexivity.
    + repeat constructor; simpl; lia.
  - apply (proj1 (throttle_burst never_throws 500 throttle_init (fresh 0) a
                    [] 1000
                    (or_introl eq_refl)
                    ltac:(repeat constructor; simpl; lia))).
    + reflexivity.
    + left. reflexivity.
    + constructor.
  - apply (proj2 (throttle_burst never_throws 500
                    {| lastCall := Some 0; timer := None |}
                    {| clock := 100; next_id := 1; timers := [];
                       frames := []; log := [] |} b
                    [(200, c)] 1000
                    (or_introl eq_refl)
                    ltac:(repeat constructor; simpl; lia)) 0).
    + reflexivity.
    + reflexivity.
    + simpl. lia.
    + repeat constructor; simpl; lia.
Defined.

(** C4, as stated, fails.  With a timeout of 500, the call at 0 is invoked
    at once and the call at 100 arms a trailing call due at 600; the call
    at 501 is invoked at once too, and its callback throws: the trailing
    call is not cancelled, its handle is not cleared, and it runs at 600. *)
Lemma throttle_throw_keeps_trailing_call :
  let cb : behaviour := fun h _ => 501 <=? clock h in
  let s := run (Events.throttle cb 500 true)
             (timed [(0, [Str "a"]); (100, [Str "b"])] ++ [Advance 501])
             (throttle_init, fresh 0) in
  let s' := Events.throttle cb 500 true [Str "c"] s in
  lastCall (fst s) = Some 0 /\ now (snd s) = 501 /\
  log (snd s') =
    log (snd s)
    ++ [{| e_origin := Immediate; e_time := 501; e_args := [Str "c"] |}] /\
  timer (fst s') <> None /\
  timers (snd s') <> [] /\
  log (advance 600 (snd s')) =
    [{| e_origin := Immediate; e_time := 0; e_args := [Str "a"] |};
     {| e_origin := Immediate; e_time := 501; e_args := [Str "c"] |};
     {| e_origin := Deferred; e_time := 600; e_args := [Str "b"] |}].
Proof.
  vm_compute. repeat split; intros H; discriminate H.
Qed.

Lemma throttle_immediate_path_witness :
  let st := {| lastCall := Some 0; timer := Some 1 |} in
  let x := {| t_id := 1; t_due := 600; t_repeat := None;
              t_args := [Str "b"] |} in
  let h t := {| clock := t; next_id := 2; timers := [x]; frames := [];
                log := [] |} in
  (let s' := Events.throttle never_throws 500 true [Str "a"] (st, h 501) in
   log (snd s') =
     [{| e_origin := Immediate; e_time := 501; e_args := [Str "a"] |}] /\
   lastCall (fst s') = Some 501 /\ timer (fst s') = None /\
   timers (snd s') = []) /\
  (let s' := Events.throttle always_throws 500 true [Str "a"] (st, h 501) in
   log (snd s') =
     [{| e_origin := Immediate; e_time := 501; e_args := [Str "a"] |}] /\
   lastCall (fst s') = Some 501 /\ timer (fst s') = Some 1 /\
   timers (snd s') = [x]) /\
  (let s' := Events.throttle never_throws 500 true [Str "a"] (st, h 500) in
   log (snd s') = [] /\ lastCall (fst s') = Some 0).
Proof.
  intros st x h. split; [|split].
  - destruct (proj1 (throttle_immediate_path never_throws 500 true [Str "a"]
                       st (h 501)))
      as (Hl & Hlast & Hret & _).
    + right. exists 0. split; [reflexivity | simpl; lia].
    + destruct (Hret eq_refl) as (Htimer & Hts & _).
      repeat split; assumption.
  - destruct (proj1 (throttle_immediate_path always_throws 500 true [Str "a"]
                       st (h 501)))
      as (Hl & Hlast & _ & Hthrow).
    + right. exists 0. split; [reflexivity | simpl; lia].
    + destruct (Hthrow eq_refl) as (Htimer & Hts).
      repeat split; assumption.
  - apply (proj2 (throttle_immediate_path never_throws 500 true [Str "a"]
                    st (h 500)) 0);
      reflexivity.
Defined.

(** C6, as stated, fails.  With a timeout of 500 and a callback that
    throws, the call at 0 invokes it and leaves [lastCall] undefined, so
    the call at 100 invokes it again. *)
Lemma initialEvent_throw_skips_lastCall :
  let s1 := Events.initialEvent always_throws 500 [Str "a"] (None, fresh 0) in
  fst s1 = None /\
  fst s1 <> Some (now (fresh 0)) /\
  log (snd (run (Events.initialEvent always_throws 500)
              (timed [(0, [Str "a"]); (100, [Str "b"])]) (None, fresh 0))) =
  [{| e_origin := Immediate; e_time := 0; e_args := [Str "a"] |};
   {| e_origin := Immediate; e_time := 100; e_args := [Str "b"] |}].
Proof.
  vm_compute. repeat split. intros H. discriminate H.
Qed.

Lemma finalEvent_burst_witness :
  log (snd (run (Events.finalEvent 500)
              (Call [Str "a"]
               :: timed [(100, [Str "b"]); (200, [Str "c"])] ++ [Advance 700])
              (None, fresh 0))) =
  [{| e_origin := Deferred; e_time := 700; e_args := [Str "c"] |}].
Proof.
  apply (finalEvent_burst 500 (None, fresh 0) [Str "a"]
           [(100, [Str "b"]); (200, [Str "c"])] 700).
  - lia.
  - left. reflexivity.
  - simpl. lia.
  - simpl. lia.
Defined.

Lemma throttle_stale_handle_witness :
  let call := Events.throttle never_throws 500 true in
  let s0 := run call [Call [Str "a"]; Call [Str "b"]] (throttle_init, fresh 0) in
  let s1 := step call (Advance 500) s0 in
  log (snd s1) =
    [{| e_origin := Immediate; e_time := 0; e_args := [Str "a"] |};
     {| e_origin := Deferred; e_time := 500; e_args := [Str "b"] |}] /\
  timers (snd s1) = [] /\
  timer (fst s1) = Some 1 /\
  call [Str "c"] s1 = s1.
Proof.
  intros call s0 s1.
  destruct (throttle_stale_handle never_throws 500 true [Str "c"]
              (fst s0) (snd s0)
              {| t_id := 1; t_due := 500; t_repeat := None;
                 t_args := [Str "b"] |} 0 500)
    as (Hl & Hts & Htimer & Hcall & _).
  - reflexivity.
  - reflexivity.
  - reflexivity.
  - reflexivity.
  - simpl. lia.
  - reflexivity.
  - vm_compute. discriminate.
  - repeat split; assumption.
Defined.

Lemma part000_throttle_asymmetry_witness :
  let init := [Str "i"] in
  let args := [Str "a"] in
  let h := {| clock := 100; next_id := 1; timers := []; frames := [];
              log := [] |} in
  log (snd (Part000.throttle never_throws 500 true init args (throttle_init, h))) =
    [{| e_origin := Immediate; e_time := 100; e_args := [Str "a"] |}] /\
  log (advance 600
         (snd (Part000.throttle never_throws 500 true init args
                 ({| lastCall := Some 0; timer := None |}, h)))) =
    [{| e_origin := Deferred; e_time := 600;
        e_args := [Str "a"; Str "i"] |}].
Proof.
  intros init args h. split.
  - apply (part000_throttle_asymmetry never_throws 500 true init args
             throttle_init h 600).
    + discriminate.
    + reflexivity.
    + simpl. lia.
    + reflexivity.
  - apply (part000_throttle_asymmetry never_throws 500 true init args
             {| lastCall := Some 0; timer := None |} h 600).
    + discriminate.
    + reflexivity.
    + simpl. lia.
    + reflexivity.
    + reflexivity.
Defined.

(** [initialEvent] measures from the previous call, not from the previous
    invocation: with a timeout of 500, calls at 0, 400 and 800 invoke the
    callback once, at 0. *)
Example initialEvent_sliding_window :
  log (snd (run (Events.initialEvent never_throws 500)
              (timed [(0, [Str "a"]); (400, [Str "b"]); (800, [Str "c"])])
              (None, fresh 0))) =
  [{| e_origin := Immediate; e_time := 0; e_args := [Str "a"] |}].
Proof. reflexivity. Qed.

(** [throttle] measures from the last immediate invocation: with a timeout
    of 500, the trailing call armed at 100 runs at 600, and a call at 601 is
    invoked at once. *)
Example throttle_cooldown_not_rearmed :
  log (snd (run (Events.throttle never_throws 500 true)
              (timed [(0, [Str "a"]); (100, [Str "b"]); (601, [Str "c"])])
              (throttle_init, fresh 0))) =
  [{| e_origin := Immediate; e_time := 0; e_args := [Str "a"] |};
   {| e_origin := Deferred; e_time := 600; e_args := [Str "b"] |};
   {| e_origin := Immediate; e_time := 601; e_args := [Str "c"] |}].
Proof. reflexivity. Qed.

Lemma throttle_burst_in_cooldown_witness :
  let h := {| clock := 100; next_id := 1; timers := []; frames := [];
              log := [] |} in
  log (snd (run (Events.throttle never_throws 500 true)
              (Call [Str "b"] :: timed [(200, [Str "c"])] ++ [Advance 600])
              ({| lastCall := Some 0; timer := None |}, h))) =
  [{| e_origin := Deferred; e_time := 600; e_args := [Str "b"] |}].
Proof.
  intros h.
  apply (throttle_burst_in_cooldown never_throws 500
           {| lastCall := Some 0; timer := None |}
           h 0 [Str "b"] [(200, [Str "c"])] 600).
  - reflexivity.
  - reflexivity.
  - reflexivity.
  - simpl. lia.
  - repeat constructor; simpl; lia.
  - simpl. lia.
Defined.

Lemma part000_throttle_burst_init_witness :
  log (snd (run (Part000.throttle never_throws 500 true [Str "i"])
              (Call [Str "a"]
               :: timed [(100, [Str "b"]); (200, [Str "c"])] ++ [Advance 1000])
              (throttle_init, fresh 0))) =
  [{| e_origin := Immediate; e_time := 0; e_args := [Str "a"] |};
   {| e_origin := Deferred; e_time := 600;
      e_args := [Str "b"; Str "i"] |}].
Proof.
  apply (part000_throttle_burst_init never_throws 500 [Str "i"]
           throttle_init (fresh 0)
           [Str "a"] 100 [Str "b"] [(200, [Str "c"])] 1000).
  - left. reflexivity.
  - reflexivity.
  - left. reflexivity.
  - repeat constructor; simpl; lia.
  - lia.
Defined.

Lemma initialEvent_burst_witness :
  log (snd (run (Events.initialEvent never_throws 500)
              (Call [Str "a"]
               :: timed [(500, [Str "b"]); (1000, [Str "c"])])
              (None, fresh 0))) =
  [{| e_origin := Immediate; e_time := 0; e_args := [Str "a"] |}].
Proof.
  apply (proj1 (initialEvent_burst never_throws 500 [] None (fresh 0)
                  [Str "a"] [(500, [Str "b"]); (1000, [Str "c"])]
                  eq_refl eq_refl ltac:(simpl; lia))).
  reflexivity.
Defined.

Lemma initialEvent_rate_limit_witness :
  apart 500
    (immediate_times
       (log (snd (run (Events.initialEvent never_throws 500)
                    (timed [(0, [Str "a"]); (400, [Str "b"]);
                            (901, [Str "c"])])
                    (None, fresh 0))))).
Proof.
  apply (initialEvent_rate_limit never_throws 500 []
           (timed [(0, [Str "a"]); (400, [Str "b"]); (901, [Str "c"])]) 0).
  reflexivity.
Defined.

Lemma animationEvent_coalesces_witness :
  log (snd (run Events.animationEvent
              (map Call [[Str "a"]; [Str "b"]] ++ [Frame 16; Frame 33])
              (None, fresh 0))) =
  [{| e_origin := Deferred; e_time := 0; e_args := [Str "b"; Num 16] |}].
Proof.
  apply (animationEvent_coalesces (None, fresh 0) [Str "a"] [[Str "b"]] 16 33).
  left. reflexivity.
Defined.

Lemma part000_animationEvent_coalesces_witness :
  log (snd (run (Part000.animationEvent [Str "i"])
              (map Call [[Str "a"]; [Str "b"]] ++ [Frame 16; Frame 33])
              (None, fresh 0))) =
  [{| e_origin := Deferred; e_time := 0;
      e_args := [Num 16; Str "b"; Str "i"] |}].
Proof.
  apply (part000_animationEvent_coalesces [Str "i"] (None, fresh 0)
           [Str "a"] [[Str "b"]] 16 33).
  left. reflexivity.
Defined.

Lemma startInterval_periodic_witness :
  let r := Events.startInterval never_throws (Some 100) [Str "x"] (fresh 0) in
  fst r = Some 1 /\
  log (advance 250 (snd r)) =
    [{| e_origin := Immediate; e_time := 0; e_args := [] |};
     {| e_origin := Deferred; e_time := 100; e_args := [Str "x"] |};
     {| e_origin := Deferred; e_time := 200; e_args := [Str "x"] |}] /\
  log (advance 900 (clearInterval 1 (advance 250 (snd r)))) =
    log (advance 250 (snd r)).
Proof.
  intros r.
  destruct (startInterval_periodic never_throws 100 [Str "x"] (fresh 0)
              2 250 900)
    as (_ & Hf & _ & Hl & Hc).
  - reflexivity.
  - lia.
  - simpl. lia.
  - split; [exact Hf|]. split; [exact Hl | exact Hc].
Defined.

Lemma finalEvent_last_call_wins_witness :
  let s := run (Events.finalEvent 500) [Call [Str "a"]] (None, fresh 0) in
  let s' := run (Events.finalEvent 500) [Stall 100; Advance 900; Frame 16]
              (Events.finalEvent 500 [Str "b"] s) in
  log (snd s') = [] \/
  exists t, 500 <= t /\
    log (snd s') = [{| e_origin := Deferred; e_time := t;
                       e_args := [Str "b"] |}].
Proof.
  intros s.
  apply (finalEvent_last_call_wins 500 [Str "b"] s
           [Stall 100; Advance 900; Frame 16]).
  - right. eexists. split; [reflexivity|]. simpl. auto.
  - reflexivity.
  - repeat constructor.
Defined.

Lemma throttle_negative_timeout_witness :
  let s := run (Events.throttle never_throws (-1) true)
             [Call [Str "a"]; Call [Str "b"]; Advance 5; Call [Str "c"]]
             (throttle_init, fresh 0) in
  List.length (log (snd s)) = 3%nat /\ count_origin Deferred (log (snd s)) = O.
Proof.
  intros s.
  apply (throttle_negative_timeout never_throws (-1) true []
           [Call [Str "a"]; Call [Str "b"]; Advance 5; Call [Str "c"]] 0).
  lia.
Defined.
